(** * rubin_sim.selfcal.generate_catalog: a shallow embedding

    The module under study synthesises a catalogue of observed stellar
    magnitudes: a k-d tree is built over the star catalogue, every visit
    selects the stars inside its field of view, a chain of offsets is applied
    to their true magnitudes and an uncertainty is attached.

    The Python code computes on numpy [float64] values.  The embedding is
    written once over an arithmetic interface ([Arith], [Trig]) and used at
    two instances:
    - [F64]: IEEE binary64, through Rocq's primitive floats (executable);
      it has no [cos]/[sin], so only the code that needs no trigonometry
      runs on it;
    - [Exact]: the real numbers, i.e. the same code with every rounding
      removed.  Equalities that the source satisfies "up to floating-point
      tolerance" are proved here. *)

From stdpp Require Import base option list strings pretty gmap.
From Stdlib Require Import ZArith Lia Floats SpecFloat Reals Lra Zfloor.

Set Default Proof Using "Type".
Local Open Scope Z_scope.

(* ------------------------------------------------------------------ *)
(** * The arithmetic the code relies on *)

(** What the module needs from numpy's [float64]: literals, the four
    operations, [abs], [sqrt], C's [fmod] and [copysign] (both used by the
    [%] operator), the comparisons, and [np.isfinite], which scipy applies
    to the points it is given. *)
Class Arith (F : Type) := {
  of_Z : Z -> F;
  add : F -> F -> F;
  sub : F -> F -> F;
  mul : F -> F -> F;
  div : F -> F -> F;
  abs : F -> F;
  sqrt : F -> F;
  fmod : F -> F -> F;
  copysign : F -> F -> F;
  eqb : F -> F -> bool;
  ltb : F -> F -> bool;
  leb : F -> F -> bool;
  is_finite : F -> bool
}.

(** [np.cos], [np.sin] and [np.pi]. *)
Class Trig (F : Type) := {
  cos : F -> F;
  sin : F -> F;
  pi : F
}.

(** [a > b] is [b < a]. *)
Definition gtb {F} `{Arith F} (a b : F) : bool := ltb b a.

(** [a ** 2]. *)
Definition pow2 {F} `{Arith F} (a : F) : F := mul a a.

(** The [%] operator of Python and numpy on floats ([float_rem],
    [npy_remainder]): C's [fmod], moved to the sign of the divisor.  (For a
    zero divisor numpy returns what [fmod] returns and Python raises; the
    module only divides by 360.0.)
<<
    mod = fmod(a, b);
    if (!b) return mod;
    if (mod) { if ((b < 0) != (mod < 0)) mod += b; }
    else mod = copysign(0, b);
>> *)
Definition py_mod {F} `{Arith F} (a b : F) : F :=
  let m := fmod a b in
  if eqb b (of_Z 0) then m
  else if negb (eqb m (of_Z 0)) then
    if negb (Bool.eqb (ltb b (of_Z 0)) (ltb m (of_Z 0))) then add m b else m
  else copysign (of_Z 0) b.

(* ------------------------------------------------------------------ *)
(** * IEEE binary64 *)

Module F64.

(** The integer [z], rounded to nearest even. *)
Definition from_Z (z : Z) : float :=
  SF2Prim (binary_normalize prec emax z 0 false).

(** C's [fmod]: the remainder of the truncated division, which is always
    representable; it carries the sign of [a]. *)
Definition fmod64 (a b : float) : float :=
  match Prim2SF a, Prim2SF b with
  | S754_nan, _ | _, S754_nan => nan
  | S754_infinity _, _ => nan
  | _, S754_zero _ => nan
  | S754_zero _, _ => a
  | S754_finite _ _ _, S754_infinity _ => a
  | S754_finite sa ma ea, S754_finite _ mb eb =>
      let e := Z.min ea eb in
      let r := (Z.pos ma * 2 ^ (ea - e)) mod (Z.pos mb * 2 ^ (eb - e)) in
      SF2Prim (binary_normalize prec emax (if sa then - r else r) e sa)
  end.

Definition copysign64 (x y : float) : float :=
  if get_sign y then PrimFloat.opp (PrimFloat.abs x) else PrimFloat.abs x.

#[export] Instance arith : Arith float := {|
  of_Z := from_Z;
  add := PrimFloat.add;
  sub := PrimFloat.sub;
  mul := PrimFloat.mul;
  div := PrimFloat.div;
  abs := PrimFloat.abs;
  sqrt := PrimFloat.sqrt;
  fmod := fmod64;
  copysign := copysign64;
  eqb := PrimFloat.eqb;
  ltb := PrimFloat.ltb;
  leb := PrimFloat.leb;
  is_finite := PrimFloat.is_finite
|}.

End F64.

(* ------------------------------------------------------------------ *)
(** * Exact real arithmetic *)

Module Exact.

Definition Reqb (a b : R) : bool := if Req_dec_T a b then true else false.
Definition Rltb (a b : R) : bool := if Rlt_dec a b then true else false.
Definition Rleb (a b : R) : bool := if Rle_dec a b then true else false.

(** Truncation towards zero. *)
Definition Rtrunc (x : R) : Z := if Rle_dec 0 x then Zfloor x else Zceil x.

(** [fmod] without rounding.  There is no NaN: a zero divisor, which the
    module never uses, returns [a].  Every real number is finite. *)
Definition Rfmod (a b : R) : R := (a - b * IZR (Rtrunc (a / b)))%R.

Definition Rcopysign (x y : R) : R :=
  if Rlt_dec y 0 then (- Rabs x)%R else Rabs x.

#[export] Instance arith : Arith R := {|
  of_Z := IZR;
  add := Rplus;
  sub := Rminus;
  mul := Rmult;
  div := Rdiv;
  abs := Rabs;
  sqrt := R_sqrt.sqrt;
  fmod := Rfmod;
  copysign := Rcopysign;
  eqb := Reqb;
  ltb := Rltb;
  leb := Rleb;
  is_finite := fun _ => true
|}.

#[export] Instance trig : Trig R := {|
  cos := Rtrigo_def.cos;
  sin := Rtrigo_def.sin;
  pi := PI
|}.

End Exact.

(* ------------------------------------------------------------------ *)
(** * Coordinate helpers *)

Section Coordinates.
Context {F : Type} `{Arith F}.

(** [wrapRA]: [ra % 360.0]. *)
Definition wrapRA (ra : F) : F := py_mod ra (of_Z 360).

(** [capDec], on one element: the two [np.where] passes. *)
Definition capDec (dec : F) : F :=
  let dec := if gtb dec (of_Z 90) then of_Z 90 else dec in
  let dec := if ltb dec (of_Z (-90)) then of_Z (-90) else dec in
  dec.

Context `{Trig F}.

(** [treexyz], on one point. *)
Definition treexyz (ra dec : F) : F * F * F :=
  let x := mul (cos dec) (cos ra) in
  let y := mul (cos dec) (sin ra) in
  let z := sin dec in
  (x, y, z).

(** [np.radians]: multiplication by [pi / 180]. *)
Definition radians (deg : F) : F := mul deg (div pi (of_Z 180)).

End Coordinates.


(* ------------------------------------------------------------------ *)
(** * Data model *)

Section Pipeline.
Context {F : Type} `{Arith F} `{Trig F}.

(** A row of [stars_array]: the columns the module reads.  The magnitude
    columns are addressed by name (["rmag"] for filter ["r"]). *)
Record Star := {
  id : Z;
  ra : F;
  decl : F;
  mag : string -> F
}.

(** A row of [stars]: [stars_array] merged with the seven new columns. *)
Record Row := {
  star : Star;
  x : F;
  y : F;
  radius : F;
  patch_id : Z;
  sub_patch : Z;
  observed_mag : F;
  mag_uncert : F
}.

(** A visit: the three columns the module reads, and the rest of the
    survey metadata for the collaborators. *)
Record Visit := {
  v_ra : F;
  v_dec : F;
  fiveSigmaDepth : F;
  v_meta : string -> F
}.

(** A row of the result ([output_cols]). *)
Record Obs := {
  o_id : Z;
  o_patch_id : Z;
  o_observed_mag : F;
  o_mag_uncert : F;
  o_mag : F;
  o_ra : F;
  o_decl : F
}.

Inductive exn :=
| ValueError (msg : string)
| IndexError (msg : string)
| KeyError (key : string)
| OverflowError (msg : string)
| OffsetError (msg : string).

Inductive res (A : Type) :=
| Ok (a : A)
| Raise (e : exn).
Global Arguments Ok {A} a.
Global Arguments Raise {A} e.

Definition res_bind {A B} (r : res A) (k : A -> res B) : res B :=
  match r with
  | Ok a => k a
  | Raise e => Raise e
  end.

(** The shape of a one-dimensional array of [n] elements, as numpy prints
    it in its messages. *)
Definition shape (n : nat) : string := "(" +:+ pretty n +:+ ",)".

(** A binary operation of numpy on two one-dimensional arrays: elementwise
    when the lengths agree, an array of one element is broadcast, and any
    other pair of lengths raises. *)
Definition broadcast (f : F -> F -> F) (a b : list F) : res (list F) :=
  if (length a =? length b)%nat then Ok (zip_with f a b)
  else match a, b with
       | [a0], _ => Ok (map (f a0) b)
       | _, [b0] => Ok (map (fun a' => f a' b0) a)
       | _, _ =>
           Raise (ValueError
                    ("operands could not be broadcast together with shapes "
                     +:+ shape (length a) +:+ " " +:+ shape (length b)
                     +:+ " "))
       end.

(** [treexyz] on two one-dimensional arrays: [x] and [y] have the
    broadcast length, [z] the length of [dec]. *)
Definition treexyz_arrays (ra dec : list F)
  : res (list F * list F * list F) :=
  res_bind (broadcast mul (map cos dec) (map cos ra)) (fun x =>
  res_bind (broadcast mul (map cos dec) (map sin ra)) (fun y =>
  let z := map sin dec in
  Ok (x, y, z))).

(** Python's [zip] of three sequences: it stops with the shortest. *)
Fixpoint zip3 (xs ys zs : list F) : list (F * F * F) :=
  match xs, ys, zs with
  | x :: xs', y :: ys', z :: zs' => (x, y, z) :: zip3 xs' ys' zs'
  | _, _, _ => []
  end.

(** [dmags]: a Python dict, which keeps its keys in insertion order. *)
Definition dict : Type := list (string * list F).

(** [d[k] = v]: an existing key keeps its place and takes the new value,
    a new key goes last. *)
Fixpoint dict_set (k : string) (v : list F) (d : dict) : dict :=
  match d with
  | [] => [(k, v)]
  | (k', v') :: d' =>
      if String.eqb k k' then (k, v) :: d' else (k', v') :: dict_set k v d'
  end.

(** An offset: its [newkey] and its [__call__], which receives the
    candidate stars, the visit and the deltas so far, and returns one
    array (or raises). *)
Record Offset := {
  newkey : string;
  call : list Row -> Visit -> dict -> res (list F)
}.

(** Modelled from the spec: the collaborators of [star_tools] and
    [offsets], which are not part of the module.  [stars_project] gives
    each candidate its [x], [y] and [radius]; [assign_patches] gives it a
    [patch_id] and a [sub_patch]; [OffsetSNR(lsst_filter).calc_mag_errors]
    maps a magnitude and the visit's depth to an error. *)
Class Collaborators := {
  stars_project : Visit -> Row -> F * F * F;
  assign_patches : Visit -> Z -> Row -> Z * Z;
  calc_mag_errors : string -> F -> F -> F
}.
Context `{Collaborators}.

(* ---------------------------------------------------------------- *)
(** * The k-d tree *)

(** [scipy.spatial.cKDTree]: the points, in the order given. *)
Record KDTree := {
  kd_data : list (F * F * F);
  kd_leafsize : Z
}.

(** A point scipy accepts: every coordinate is finite. *)
Definition finite_point (p : F * F * F) : bool :=
  let '(px, py, pz) := p in is_finite px && is_finite py && is_finite pz.

(** The constructor [cKDTree(data, leafsize=leafsize)].  [leafsize] is a C
    integer ([np.intp_t], 64 bits), so a Python integer outside its range
    is refused when the arguments are converted; then the data must be
    finite and the leaf size at least 1. *)
Definition kdtree (data : list (F * F * F)) (leafsize : Z) : res KDTree :=
  if negb ((- 2 ^ 63 <=? leafsize) && (leafsize <? 2 ^ 63))%Z
  then Raise (OverflowError "Python int too large to convert to C long")
  else if negb (forallb finite_point data)
  then Raise (ValueError "data must be finite, check for nan or inf values")
  else if (leafsize <? 1)%Z
  then Raise (ValueError "leafsize must be at least 1")
  else Ok {| kd_data := data; kd_leafsize := leafsize |}.

(** The Euclidean distance, the metric of the tree (Minkowski, [p = 2]). *)
Definition distance (p q : F * F * F) : F :=
  let '(px, py, pz) := p in
  let '(qx, qy, qz) := q in
  sqrt (add (add (pow2 (sub px qx)) (pow2 (sub py qy))) (pow2 (sub pz qz))).

(** What [query_ball_point(x, r)] returns for a point [x] it accepts and
    a radius [r] that is not negative, as [treeRadius] is: the indices of
    the points within distance [r] of [x] (Euclidean, boundary included);
    here in increasing order, scipy promises none. *)
Definition query_ball_point (t : KDTree) (pt : F * F * F) (r : F) : list nat :=
  map fst (filter (fun ip => leb (distance ip.2 pt) r = true)
                  (imap (fun i p => (i, p)) (kd_data t))).

(** The call [starTree.query_ball_point(x, r)]: scipy refuses a point with
    a coordinate that is not finite. *)
Definition kdtree_query (t : KDTree) (pt : F * F * F) (r : F)
  : res (list nat) :=
  if finite_point pt then Ok (query_ball_point t pt r)
  else Raise (ValueError "'x' must be finite, check for nan or inf values").

(** [buildTree], on two one-dimensional arrays.  [np.size] of a list of
    [n] triples is [3 n]. *)
Definition buildTree (simDataRa simDataDec : list F) (leafsize : Z)
  : res KDTree :=
  if existsb (fun a => gtb (abs a) (mul pi (of_Z 2))) simDataRa
     || existsb (fun a => gtb (abs a) (mul pi (of_Z 2))) simDataDec
  then Raise (ValueError "Expecting RA and Dec values to be in radians.")
  else
    res_bind (treexyz_arrays simDataRa simDataDec) (fun '(x, y, z) =>
    let data := zip3 x y z in
    if (0 <? 3 * Z.of_nat (length data))%Z
    then kdtree data leafsize
    else Raise (ValueError
                  "SimDataRA and Dec should have length greater than 0.")).

(* ---------------------------------------------------------------- *)
(** * State: the arrays, the warnings, the terminal, numpy's seed *)

(** What the run leaves behind outside its result: a warning, a progress
    line ([i] of [n_visits]; the text itself is not modelled). *)
Inductive event :=
| Warn (msg : string)
| Progress (i n_visits : nat).

(** Structured arrays are objects: they live in the heap and a variable
    holds a reference.  [np_seed] is the last argument of
    [np.random.seed]. *)
Record State := {
  heap : gmap nat (list Row);
  next_ref : nat;
  events : list event;
  np_seed : option Z
}.

Definition init_state : State :=
  {| heap := ∅; next_ref := 0%nat; events := []; np_seed := None |}.

Definition M (A : Type) : Type := State -> res A * State.

Definition ret {A} (a : A) : M A := fun s => (Ok a, s).

Definition bind {A B} (m : M A) (k : A -> M B) : M B :=
  fun s => match m s with
           | (Ok a, s') => k a s'
           | (Raise e, s') => (Raise e, s')
           end.

(** A computation that may raise but touches no state. *)
Definition lift {A} (r : res A) : M A := fun s => (r, s).

(** A new array object. *)
Definition alloc (a : list Row) : M nat :=
  fun s => (Ok (next_ref s),
            {| heap := <[next_ref s := a]> (heap s);
               next_ref := S (next_ref s);
               events := events s; np_seed := np_seed s |}).

(** The contents behind a reference. *)
Definition load (l : nat) : M (list Row) :=
  fun s => (Ok (default [] (heap s !! l)), s).

(** In-place update of the array behind a reference. *)
Definition store (l : nat) (a : list Row) : M unit :=
  fun s => (Ok tt,
            {| heap := <[l := a]> (heap s);
               next_ref := next_ref s;
               events := events s; np_seed := np_seed s |}).

Definition emit (e : event) : M unit :=
  fun s => (Ok tt,
            {| heap := heap s; next_ref := next_ref s;
               events := events s ++ [e]; np_seed := np_seed s |}).

(** The seeds [np.random.seed] accepts among the integers. *)
Definition valid_seed (seed : Z) : bool :=
  ((0 <=? seed) && (seed <? 2 ^ 32))%Z.

(** [np.random.seed(seed)] with an integer: a seed outside
    [0 .. 2**32 - 1] raises and leaves the generator as it was. *)
Definition np_random_seed (seed : Z) : M unit :=
  fun s => if valid_seed seed
           then (Ok tt,
                 {| heap := heap s; next_ref := next_ref s;
                    events := events s; np_seed := Some seed |})
           else (Raise (ValueError "Seed must be between 0 and 2**32 - 1"),
                 s).

Notation "'let*' x ':=' m 'in' k" := (bind m (fun x => k))
  (at level 10, x pattern, m at level 100, k at level 200, only parsing).

(* ---------------------------------------------------------------- *)
(** * numpy's array operations, as far as the module uses them *)

(** [np.zeros] for the new columns, merged onto a catalogue row. *)
Definition zero_row (s : Star) : Row :=
  {| star := s; x := of_Z 0; y := of_Z 0; radius := of_Z 0;
     patch_id := 0; sub_patch := 0;
     observed_mag := of_Z 0; mag_uncert := of_Z 0 |}.

(** [rfn.merge_arrays([stars_array, stars_new], flatten=True)]. *)
Definition merge_arrays (stars_array : list Star) : list Row :=
  map zero_row stars_array.

(** [a[indices]] with a list of integers: a new array holding copies of
    the rows; an index out of range raises, and the message names the
    first one. *)
Definition getitem (a : list Row) (indices : list nat) : res (list Row) :=
  match mapM (fun i => a !! i) indices with
  | Some rows => Ok rows
  | None =>
      let i := default 0%nat
                 (head (List.filter (fun i => (length a <=? i)%nat) indices)) in
      Raise (IndexError
               ("index " +:+ pretty i
                +:+ " is out of bounds for axis 0 with size "
                +:+ pretty (length a)))
  end.

(** [a[col] = vals]: elementwise; a [vals] of one element is broadcast;
    any other length raises. *)
Definition set_column (put : Row -> F -> Row) (a : list Row) (vals : list F)
  : res (list Row) :=
  if (length vals =? length a)%nat then Ok (zip_with put a vals)
  else match vals with
       | [v] => Ok (map (fun r => put r v) a)
       | _ =>
           Raise (ValueError
                    ("could not broadcast input array from shape "
                     +:+ shape (length vals) +:+ " into shape "
                     +:+ shape (length a)))
       end.

(** [obs += d]: elementwise; a [d] of one element is broadcast; any other
    length raises.  numpy has two messages: [obs] of one element
    broadcasts against [d], and the result does not fit in [obs];
    otherwise the two shapes do not broadcast at all. *)
Definition iadd (obs d : list F) : res (list F) :=
  if (length d =? length obs)%nat then Ok (zip_with add obs d)
  else match d with
       | [d0] => Ok (map (fun o => add o d0) obs)
       | _ =>
           match obs with
           | [_] =>
               Raise (ValueError
                        ("non-broadcastable output operand with shape (1,) "
                         +:+ "doesn't match the broadcast shape "
                         +:+ shape (length d)))
           | _ =>
               Raise (ValueError
                        ("operands could not be broadcast together with "
                         +:+ "shapes " +:+ shape (length obs) +:+ " "
                         +:+ shape (length d) +:+ " " +:+ shape (length obs)
                         +:+ " "))
           end
       end.

(** [np.concatenate]: an empty list of arrays raises. *)
Definition concatenate (arrays : list (list Obs)) : res (list Obs) :=
  match arrays with
  | [] => Raise (ValueError "need at least one array to concatenate")
  | _ => Ok (concat arrays)
  end.

(** [d[k]]. *)
Fixpoint dict_get (k : string) (d : dict) : res (list F) :=
  match d with
  | [] => Raise (KeyError k)
  | (k', v) :: d' => if String.eqb k k' then Ok v else dict_get k d'
  end.

(* ---------------------------------------------------------------- *)
(** * The body of the loop over the visits *)

Definition with_projection (visit : Visit) (r : Row) : Row :=
  let '(px, py, prad) := stars_project visit r in
  {| star := star r; x := px; y := py; radius := prad;
     patch_id := patch_id r; sub_patch := sub_patch r;
     observed_mag := observed_mag r; mag_uncert := mag_uncert r |}.

Definition with_patches (visit : Visit) (n_patches : Z) (r : Row) : Row :=
  let '(pid, sub) := assign_patches visit n_patches r in
  {| star := star r; x := x r; y := y r; radius := radius r;
     patch_id := pid; sub_patch := sub;
     observed_mag := observed_mag r; mag_uncert := mag_uncert r |}.

Definition with_observed_mag (r : Row) (m : F) : Row :=
  {| star := star r; x := x r; y := y r; radius := radius r;
     patch_id := patch_id r; sub_patch := sub_patch r;
     observed_mag := m; mag_uncert := mag_uncert r |}.

Definition with_mag_uncert (r : Row) (e : F) : Row :=
  {| star := star r; x := x r; y := y r; radius := radius r;
     patch_id := patch_id r; sub_patch := sub_patch r;
     observed_mag := observed_mag r; mag_uncert := e |}.

(** ["%smag" % lsst_filter]. *)
Definition mag_column (lsst_filter : string) : string :=
  lsst_filter +:+ "mag".

(** [for offset in offsets: dmags[offset.newkey] = offset(stars_in, visit,
    dmags=dmags)]. *)
Fixpoint apply_offsets (offsets : list Offset) (stars_in : list Row)
    (visit : Visit) (dmags : dict) : res dict :=
  match offsets with
  | [] => Ok dmags
  | offset :: offsets' =>
      match call offset stars_in visit dmags with
      | Ok d =>
          apply_offsets offsets' stars_in visit
            (dict_set (newkey offset) d dmags)
      | Raise e => Raise e
      end
  end.

(** [for key in keys: obs_mag += dmags[key]]. *)
Fixpoint total_dmags (keys : list string) (dmags : dict) (obs_mag : list F)
  : res (list F) :=
  match keys with
  | [] => Ok obs_mag
  | key :: keys' =>
      match dict_get key dmags with
      | Ok d =>
          match iadd obs_mag d with
          | Ok obs_mag' => total_dmags keys' dmags obs_mag'
          | Raise e => Raise e
          end
      | Raise e => Raise e
      end
  end.

(** The row of [sub_cols] copied from a row of [stars_in]. *)
Definition output_row (lsst_filter : string) (r : Row) : Obs :=
  {| o_id := id (star r);
     o_patch_id := patch_id r;
     o_observed_mag := observed_mag r;
     o_mag_uncert := mag_uncert r;
     o_mag := mag (star r) (mag_column lsst_filter);
     o_ra := ra (star r);
     o_decl := decl (star r) |}.

(** One turn of [for i, visit in enumerate(visits)].  [stars] is the
    reference to the merged catalogue; [stars_in] is a new array, and the
    collaborators and the two column assignments update it in place. *)
Definition visit_body (stars : nat) (starTree : KDTree) (treeRadius : F)
    (offsets : list Offset) (lsst_filter : string) (n_patches : Z)
    (uncert_floor : F) (verbose : bool) (n_visits : nat)
    (list_of_observed_arrays : list (list Obs)) (i : nat) (visit : Visit)
  : M (list (list Obs)) :=
  let dmags : dict := [] in
  let '(vx, vy, vz) := treexyz (radians (v_ra visit)) (radians (v_dec visit)) in
  let* indices := lift (kdtree_query starTree (vx, vy, vz) treeRadius) in
  let* catalogue := load stars in
  let* selected := lift (getitem catalogue indices) in
  let* stars_in := alloc selected in
  let* a := load stars_in in
  let* _ := store stars_in (map (with_projection visit) a) in
  let* a := load stars_in in
  let* _ := store stars_in (map (with_patches visit n_patches) a) in
  let* a := load stars_in in
  let* dmags := lift (apply_offsets offsets a visit dmags) in
  let keys := map fst dmags in
  let obs_mag := map (fun r => mag (star r) (mag_column lsst_filter)) a in
  let* obs_mag := lift (total_dmags keys dmags obs_mag) in
  let mag_err :=
    map (fun m =>
           sqrt (add (pow2 (calc_mag_errors lsst_filter m
                              (fiveSigmaDepth visit)))
                     (pow2 uncert_floor)))
        obs_mag in
  let* a := load stars_in in
  let* a := lift (set_column with_observed_mag a obs_mag) in
  let* _ := store stars_in a in
  let* a := load stars_in in
  let* a := lift (set_column with_mag_uncert a mag_err) in
  let* _ := store stars_in a in
  let* a := load stars_in in
  let sub_cols := map (output_row lsst_filter) a in
  let list_of_observed_arrays := list_of_observed_arrays ++ [sub_cols] in
  let* _ := if verbose then emit (Progress i n_visits) else ret tt in
  ret list_of_observed_arrays.

(** [for i, visit in enumerate(visits)], from index [i] on. *)
Fixpoint for_visits
    (body : list (list Obs) -> nat -> Visit -> M (list (list Obs)))
    (i : nat) (visits : list Visit) (acc : list (list Obs))
  : M (list (list Obs)) :=
  match visits with
  | [] => ret acc
  | visit :: visits' =>
      let* acc' := body acc i visit in
      for_visits body (S i) visits' acc'
  end.

(* ---------------------------------------------------------------- *)
(** * [generate_catalog] *)

(** The radius for the k-d tree (the three lines under "set the radius
    for the kdtree"). *)
Definition treeRadius (radius_fov : F) : F :=
  let '(x0, y0, z0) := (of_Z 1, of_Z 0, of_Z 0) in
  let '(x1, y1, z1) := treexyz (radians radius_fov) (of_Z 0) in
  sqrt (add (add (pow2 (sub x1 x0)) (pow2 (sub y1 y0))) (pow2 (sub z1 z0))).

(** The result is [None] for Python's bare [return]. *)
Definition generate_catalog (visits : list Visit) (stars_array : list Star)
    (offsets : option (list Offset)) (lsst_filter : string) (n_patches : Z)
    (radius_fov : F) (seed : Z) (uncert_floor : F) (verbose : bool)
  : M (option (list Obs)) :=
  match offsets with
  | None =>
      let* _ := emit (Warn "Warning, no offsets set, returning without running") in
      ret None
  | Some offsets =>
      let treeRadius := treeRadius radius_fov in
      let* stars := alloc (merge_arrays stars_array) in
      let* a := load stars in
      let* starTree :=
        lift (buildTree (map (fun r => radians (ra (star r))) a)
                        (map (fun r => radians (decl (star r))) a) 100) in
      let* _ := np_random_seed seed in
      let list_of_observed_arrays := [] in
      let n_visits := length visits in
      let* list_of_observed_arrays :=
        for_visits
          (visit_body stars starTree treeRadius offsets lsst_filter
             n_patches uncert_floor verbose n_visits)
          0 visits list_of_observed_arrays in
      let* result := lift (concatenate list_of_observed_arrays) in
      ret (Some result)
  end.

(* ---------------------------------------------------------------- *)
(** * What a run computes, without the heap

    The functions below compose the pure steps of [visit_body] and of
    [generate_catalog]; [visit_body_run] and [generate_catalog_run]
    relate them to the code. *)

Fixpoint res_mapM {A B} (f : A -> res B) (l : list A) : res (list B) :=
  match l with
  | [] => Ok []
  | a :: l' =>
      res_bind (f a) (fun b => res_bind (res_mapM f l') (fun bs => Ok (b :: bs)))
  end.

(** The direction of a visit. *)
Definition visit_direction (visit : Visit) : F * F * F :=
  treexyz (radians (v_ra visit)) (radians (v_dec visit)).

(** The direction of a catalogue row, as [buildTree] receives it. *)
Definition star_direction (r : Row) : F * F * F :=
  treexyz (radians (ra (star r))) (radians (decl (star r))).

(** [stars_in] when the offsets are called: the selected rows, projected
    and patched. *)
Definition candidates (catalogue : list Row) (starTree : KDTree)
    (treeRadius : F) (n_patches : Z) (visit : Visit) : res (list Row) :=
  res_bind (kdtree_query starTree (visit_direction visit) treeRadius)
    (fun indices =>
  res_bind (getitem catalogue indices)
    (fun rows =>
       Ok (map (with_patches visit n_patches)
             (map (with_projection visit) rows)))).

(** The true magnitudes of the candidates, in the chosen band. *)
Definition true_mags (lsst_filter : string) (a : list Row) : list F :=
  map (fun r => mag (star r) (mag_column lsst_filter)) a.

(** The uncertainty attached to one observed magnitude. *)
Definition mag_error (lsst_filter : string) (uncert_floor : F)
    (visit : Visit) (m : F) : F :=
  sqrt (add (pow2 (calc_mag_errors lsst_filter m (fiveSigmaDepth visit)))
            (pow2 uncert_floor)).

(** The observed magnitudes of the candidates [a]. *)
Definition observed_mags (offsets : list Offset) (lsst_filter : string)
    (visit : Visit) (a : list Row) : res (list F) :=
  res_bind (apply_offsets offsets a visit [])
    (fun dmags => total_dmags (map fst dmags) dmags (true_mags lsst_filter a)).

(** [stars_in] at the end of the turn. *)
Definition visit_rows (catalogue : list Row) (starTree : KDTree)
    (treeRadius : F) (offsets : list Offset) (lsst_filter : string)
    (n_patches : Z) (uncert_floor : F) (visit : Visit) : res (list Row) :=
  res_bind (candidates catalogue starTree treeRadius n_patches visit)
    (fun a =>
  res_bind (observed_mags offsets lsst_filter visit a)
    (fun obs_mag =>
  res_bind (set_column with_observed_mag a obs_mag)
    (fun a1 =>
       set_column with_mag_uncert a1
         (map (mag_error lsst_filter uncert_floor visit) obs_mag)))).

(** The records of one visit. *)
Definition visit_block (catalogue : list Row) (starTree : KDTree)
    (treeRadius : F) (offsets : list Offset) (lsst_filter : string)
    (n_patches : Z) (uncert_floor : F) (visit : Visit) : res (list Obs) :=
  res_bind
    (visit_rows catalogue starTree treeRadius offsets lsst_filter n_patches
       uncert_floor visit)
    (fun rows => Ok (map (output_row lsst_filter) rows)).

(** The points [buildTree] hands to the tree, in closed form.  With as
    many [ra] as [dec] they are the [treexyz] of the pairs; a single [ra]
    is paired with every [dec]; with a single [dec] and several [ra],
    [z] has one element and [zip] keeps one point; other lengths do not
    broadcast. *)
Definition tree_points (ras decs : list F) : option (list (F * F * F)) :=
  if (length ras =? length decs)%nat then Some (zip_with treexyz ras decs)
  else match ras, decs with
       | [r0], _ => Some (map (treexyz r0) decs)
       | [], [d0] => Some []
       | r0 :: _, [d0] => Some [treexyz r0 d0]
       | _, _ => None
       end.

(** The tree [generate_catalog] builds. *)
Definition star_tree (stars_array : list Star) : res KDTree :=
  buildTree
    (map (fun r => radians (ra (star r))) (merge_arrays stars_array))
    (map (fun r => radians (decl (star r))) (merge_arrays stars_array))
    100.

(** What [np.random.seed(seed)] returns or raises. *)
Definition check_seed (seed : Z) : res unit :=
  if valid_seed seed then Ok tt
  else Raise (ValueError "Seed must be between 0 and 2**32 - 1").

(** The outcome of [generate_catalog] when [offsets] is a list. *)
Definition run_result (visits : list Visit) (stars_array : list Star)
    (offsets : list Offset) (lsst_filter : string) (n_patches : Z)
    (radius_fov : F) (seed : Z) (uncert_floor : F)
  : res (option (list Obs)) :=
  res_bind (star_tree stars_array) (fun starTree =>
  res_bind (check_seed seed) (fun _ =>
  res_bind
    (res_mapM
       (visit_block (merge_arrays stars_array) starTree
          (treeRadius radius_fov) offsets lsst_filter n_patches uncert_floor)
       visits)
    (fun blocks =>
  res_bind (concatenate blocks) (fun result => Ok (Some result))))).

(** The array [a += d] leaves at position [j], seen from [d]: the element
    a one-element [d] broadcasts, the [j]-th element otherwise. *)
Definition delta_at (d : list F) (j : nat) : option F :=
  match d with
  | [d0] => Some d0
  | _ => d !! j
  end.

(** [obs += d] for every [d] of [ds], in order. *)
Fixpoint add_all (ds : list (list F)) (obs : list F) : res (list F) :=
  match ds with
  | [] => Ok obs
  | d :: ds' => res_bind (iadd obs d) (add_all ds')
  end.

(** The deltas the offsets return, one entry per offset, in call order;
    every offset sees the dict left by the ones before it. *)
Fixpoint offset_deltas (offsets : list Offset) (stars_in : list Row)
    (visit : Visit) (dmags : dict) : res (list (string * list F)) :=
  match offsets with
  | [] => Ok []
  | offset :: offsets' =>
      res_bind (call offset stars_in visit dmags) (fun d =>
      res_bind
        (offset_deltas offsets' stars_in visit
           (dict_set (newkey offset) d dmags))
        (fun rest => Ok ((newkey offset, d) :: rest)))
  end.

(** The record of a candidate whose observed magnitude is [m]. *)
Definition record_of (lsst_filter : string) (uncert_floor : F)
    (visit : Visit) (r : Row) (m : F) : Obs :=
  {| o_id := id (star r);
     o_patch_id := patch_id r;
     o_observed_mag := m;
     o_mag_uncert := mag_error lsst_filter uncert_floor visit m;
     o_mag := mag (star r) (mag_column lsst_filter);
     o_ra := ra (star r);
     o_decl := decl (star r) |}.


(** The delta returned last under key [k], if any. *)
Fixpoint latest (k : string) (produced : list (string * list F))
  : option (list F) :=
  match produced with
  | [] => None
  | (k', d) :: rest =>
      match latest k rest with
      | Some d' => Some d'
      | None => if String.eqb k k' then Some d else None
      end
  end.

(** ** Reading "true magnitude plus the sum of the deltas" *)

(** The arrays the dict holds when the loop over the offsets ends. *)
Definition recorded_deltas (offsets : list Offset) (a : list Row)
    (visit : Visit) : res (list (list F)) :=
  res_bind (apply_offsets offsets a visit [])
    (fun dmags => Ok (map snd dmags)).

(** The arrays the offsets returned, all of them. *)
Definition produced_deltas (offsets : list Offset) (a : list Row)
    (visit : Visit) : res (list (list F)) :=
  res_bind (offset_deltas offsets a visit [])
    (fun produced => Ok (map snd produced)).

(** Record [o] carries the true magnitude of candidate [r], and its
    observed magnitude is that magnitude plus position [j] of every array
    of [ds], added from left to right. *)
Definition sums_deltas (lsst_filter : string) (ds : list (list F))
    (j : nat) (r : Row) (o : Obs) : Prop :=
  o_mag o = mag (star r) (mag_column lsst_filter)
  /\ exists djs,
       Forall2 (fun d dj => delta_at d j = Some dj) ds djs
       /\ o_observed_mag o = fold_left add djs (o_mag o).

(** [result] is made of one block per visit, one record per candidate,
    and every record sums the deltas [deltas_of] names. *)
Definition records_sum
    (deltas_of : list Offset -> list Row -> Visit -> res (list (list F)))
    (visits : list Visit) (stars_array : list Star) (offsets : list Offset)
    (lsst_filter : string) (n_patches : Z) (radius_fov : F)
    (result : list Obs) : Prop :=
  exists starTree blocks,
    star_tree stars_array = Ok starTree
    /\ result = concat blocks
    /\ Forall2
         (fun visit block =>
            exists a ds,
              candidates (merge_arrays stars_array) starTree
                (treeRadius radius_fov) n_patches visit = Ok a
              /\ deltas_of offsets a visit = Ok ds
              /\ length block = length a
              /\ forall j r o,
                   a !! j = Some r -> block !! j = Some o ->
                   sums_deltas lsst_filter ds j r o)
         visits blocks.

(** A star one of whose angles [buildTree] rejects. *)
Definition out_of_range (st : Star) : Prop :=
  gtb (abs (radians (ra st))) (mul pi (of_Z 2)) = true
  \/ gtb (abs (radians (decl st))) (mul pi (of_Z 2)) = true.

(** The state changes that leave every existing array as it is: new
    arrays, progress lines. *)
Definition is_progress (e : event) : Prop :=
  match e with
  | Progress _ _ => True
  | Warn _ => False
  end.

Definition extends (s s' : State) : Prop :=
  (next_ref s <= next_ref s')%nat
  /\ (forall l, (l < next_ref s)%nat -> heap s' !! l = heap s !! l)
  /\ np_seed s' = np_seed s
  /\ exists evs, events s' = events s ++ evs /\ Forall is_progress evs.

(** The state [generate_catalog] reaches once the merged catalogue
    exists. *)
Definition with_catalogue (s : State) (stars_array : list Star)
  : State :=
  {| heap := <[next_ref s := merge_arrays stars_array]> (heap s);
     next_ref := S (next_ref s);
     events := events s;
     np_seed := np_seed s |}.

End Pipeline.

Arguments Star F : clear implicits.
Arguments Row F : clear implicits.
Arguments Visit F : clear implicits.
Arguments Obs F : clear implicits.
Arguments Offset F : clear implicits.
Arguments dict F : clear implicits.
Arguments KDTree F : clear implicits.
Arguments State F : clear implicits.
Arguments Collaborators F : clear implicits.

(* ------------------------------------------------------------------ *)
(** * A small survey, in exact arithmetic

    One star on the equator at [ra = 0], visits pointing at it, away from
    it and with an angle beyond a full turn, and offsets that shift every
    candidate by a constant.  The collaborators are stand-ins: any would
    do. *)

Module Scenario.
Import Exact.
Local Open Scope R_scope.

#[export] Instance collaborators : Collaborators R := {|
  stars_project visit r :=
    (ra (star r) - v_ra visit, decl (star r) - v_dec visit,
     R_sqrt.sqrt ((ra (star r) - v_ra visit) * (ra (star r) - v_ra visit)
                  + (decl (star r) - v_dec visit)
                    * (decl (star r) - v_dec visit)));
  assign_patches visit n_patches r := (n_patches, 0%Z);
  calc_mag_errors lsst_filter m m5 := 1 / 100
|}.

Definition star0 : Star R :=
  {| id := 1; ra := 0; decl := 0; mag := fun _ => 15 |}.

Definition visit_at (ra_deg : R) : Visit R :=
  {| v_ra := ra_deg; v_dec := 0; fiveSigmaDepth := 24;
     v_meta := fun _ => 0 |}.

(** The visit on the star, the visit opposite to it, and the same
    pointing as the first one written two turns further. *)
Definition visit0 : Visit R := visit_at 0.
Definition visit_far : Visit R := visit_at 180.
Definition visit_720 : Visit R := visit_at 720.

(** An offset that returns [delta] for every candidate. *)
Definition shift (key : string) (delta : R) : Offset R :=
  {| newkey := key;
     call := fun stars_in _ _ => Ok (map (fun _ => delta) stars_in) |}.

(** The candidate [visit0] selects, as the offsets see it. *)
Definition row0 : Row R :=
  with_patches visit0 16 (with_projection visit0 (zero_row star0)).

(** The tree over the one-star catalogue. *)
Definition tree0 : KDTree R :=
  {| kd_data := [star_direction (zero_row star0)]; kd_leafsize := 100 |}.

(** The record of that candidate when its observed magnitude is [m]. *)
Definition record0 (m : R) : Obs R :=
  record_of "r" (5 / 1000) visit0 row0 m.

(** A star whose right ascension was entered as two full turns. *)
Definition star_720 : Star R :=
  {| id := 2; ra := 720; decl := 0; mag := fun _ => 15 |}.

(** The binary64 number nearest to [-1e-20]. *)
Definition tiny_negative : float := (-0x1.79ca10c924223p-67)%float.

(** [generate_catalog] on the scenario, with the defaults of the source
    for the other arguments. *)
Definition run (visits : list (Visit R)) (stars_array : list (Star R))
    (offsets : option (list (Offset R))) : res (option (list (Obs R))) :=
  (generate_catalog visits stars_array offsets "r" 16 (9 / 5) 42
     (5 / 1000) true init_state).1.

End Scenario.

(* ------------------------------------------------------------------ *)
(** * Angular separation, and offsets that misbehave *)

Section Separation.
Context {F : Type} `{Arith F} `{Trig F}.

(** The cosine of the angle between the directions [(ra1, dec1)] and
    [(ra2, dec2)] (radians): the scalar product of their [treexyz]. *)
Definition cos_separation (ra1 dec1 ra2 dec2 : F) : F :=
  add (mul (sin dec1) (sin dec2))
      (mul (mul (cos dec1) (cos dec2)) (cos (sub ra1 ra2))).

End Separation.

Module Misbehaving.
Import Exact.
Local Open Scope R_scope.

(** An offset that raises whatever it is given. *)
Definition failing (key msg : string) : Offset R :=
  {| newkey := key; call := fun _ _ _ => Raise (OffsetError msg) |}.

(** An offset that returns two values whatever the number of candidates. *)
Definition two_values (key : string) : Offset R :=
  {| newkey := key; call := fun _ _ _ => Ok [1; 2] |}.


End Misbehaving.

(* ------------------------------------------------------------------ *)
(** * One record, in binary64 *)

Module Scenario64.
Import F64.

(** 0.02 and 0.005, as Python reads them. *)
Definition base_error64 : float := 0x1.47ae147ae147bp-6%float.
Definition floor64 : float := 0x1.47ae147ae147bp-8%float.

(** Stand-ins for the collaborators; the uncertainty model answers
    [base_error64] whatever it is asked. *)
#[export] Instance collaborators64 : Collaborators float := {|
  stars_project visit r := (0, 0, 0)%float;
  assign_patches visit n_patches r := (n_patches, 0%Z);
  calc_mag_errors lsst_filter m m5 := base_error64
|}.

Definition star64 : Star float :=
  {| id := 1; ra := 0%float; decl := 0%float; mag := fun _ => 15%float |}.

Definition visit64 : Visit float :=
  {| v_ra := 0%float; v_dec := 0%float; fiveSigmaDepth := 24%float;
     v_meta := fun _ => 0%float |}.

(** The record of the star for this visit, at its true magnitude. *)
Definition record64 : Obs float :=
  record_of "r" floor64 visit64
    (with_patches visit64 16 (with_projection visit64 (zero_row star64)))
    15%float.

End Scenario64.


(* ------------------------------------------------------------------ *)
(** * Arrays and dicts *)

Section ArrayFacts.
Context {F : Type} `{Arith F}.

Lemma delta_at_aligned (d : list F) (j : nat) (dj : F) :
  d !! j = Some dj -> delta_at d j = Some dj.
Proof.
  destruct d as [|d0 [|d1 d]]; simpl; auto.
  destruct j; simpl; auto. rewrite lookup_nil. discriminate.
Qed.

Lemma iadd_length (obs d obs' : list F) :
  iadd obs d = Ok obs' -> length obs' = length obs.
Proof.
  unfold iadd. destruct (Nat.eqb_spec (length d) (length obs)) as [Hlen|Hlen].
  - intros [= <-]. rewrite length_zip_with. lia.
  - destruct d as [|d0 [|d1 d]]; [destruct obs as [|? [|? ?]]; discriminate
                                 | | destruct obs as [|? [|? ?]]; discriminate].
    intros [= <-]. apply length_map.
Qed.

Lemma iadd_lookup (obs d obs' : list F) (j : nat) (o : F) :
  iadd obs d = Ok obs' -> obs !! j = Some o ->
  exists dj, delta_at d j = Some dj /\ obs' !! j = Some (add o dj).
Proof.
  unfold iadd. intros Hadd Hj.
  destruct (Nat.eqb_spec (length d) (length obs)) as [Hlen|Hlen].
  - injection Hadd as <-.
    destruct (lookup_lt_is_Some_2 d j) as [dj Hdj].
    { rewrite Hlen. eapply lookup_lt_Some, Hj. }
    exists dj. split; [apply delta_at_aligned, Hdj|].
    rewrite lookup_zip_with, Hj, Hdj. reflexivity.
  - destruct d as [|d0 [|d1 d]];
      [destruct obs as [|? [|? ?]]; discriminate
      | | destruct obs as [|? [|? ?]]; discriminate].
    injection Hadd as <-. exists d0. split; [reflexivity|].
    rewrite list_lookup_fmap, Hj. reflexivity.
Qed.

Lemma add_all_length (ds : list (list F)) :
  forall obs obs', add_all ds obs = Ok obs' -> length obs' = length obs.
Proof.
  induction ds as [|d ds IH]; simpl; intros obs obs'.
  - intros [= <-]. reflexivity.
  - destruct (iadd obs d) as [obs1|e] eqn:Hadd; simpl; [|discriminate].
    intros Hrest. rewrite (IH _ _ Hrest). eapply iadd_length, Hadd.
Qed.

(** Position [j] after [add_all]: the deltas of that position, added from
    left to right. *)
Lemma add_all_lookup (ds : list (list F)) :
  forall obs obs' j o,
    add_all ds obs = Ok obs' -> obs !! j = Some o ->
    exists djs,
      Forall2 (fun d dj => delta_at d j = Some dj) ds djs
      /\ obs' !! j = Some (fold_left add djs o).
Proof.
  induction ds as [|d ds IH]; simpl; intros obs obs' j o.
  - intros [= <-] Hj. exists []. split; [constructor | exact Hj].
  - destruct (iadd obs d) as [obs1|e] eqn:Hadd; simpl; [|discriminate].
    intros Hrest Hj.
    destruct (iadd_lookup _ _ _ _ _ Hadd Hj) as (dj & Hdj & Hj1).
    destruct (IH _ _ _ _ Hrest Hj1) as (djs & Hdjs & Hj').
    exists (dj :: djs). split; [constructor; assumption | exact Hj'].
Qed.

(** ** The dict *)

Lemma dict_set_present (k : string) (v : list F) (d : dict F) :
  k ∈ map fst d -> map fst (dict_set k v d) = map fst d.
Proof.
  induction d as [|[k' v'] d IH]; intros Hin.
  - inversion Hin.
  - cbn [dict_set]. destruct (String.eqb_spec k k') as [->|Hne].
    + reflexivity.
    + cbn [map fst]. f_equal. apply IH.
      cbn [map fst] in Hin. apply elem_of_cons in Hin as [?|?]; [congruence | assumption].
Qed.

Lemma dict_set_fresh (k : string) (v : list F) (d : dict F) :
  k ∉ map fst d -> dict_set k v d = d ++ [(k, v)].
Proof.
  induction d as [|[k' v'] d IH]; simpl; intros Hk; [reflexivity|].
  destruct (String.eqb_spec k k') as [->|Hne].
  - exfalso. apply Hk. left.
  - rewrite IH; [reflexivity|]. intros Hin. apply Hk. right. exact Hin.
Qed.

Lemma dict_set_NoDup (k : string) (v : list F) (d : dict F) :
  NoDup (map fst d) -> NoDup (map fst (dict_set k v d)).
Proof.
  intros Hd. destruct (decide (k ∈ map fst d)) as [Hin|Hnin].
  - rewrite dict_set_present by exact Hin. exact Hd.
  - rewrite dict_set_fresh by exact Hnin. rewrite fmap_app.
    apply NoDup_app. repeat split; auto.
    + intros k' Hk' Hk. apply list_elem_of_singleton in Hk as ->. auto.
    + apply NoDup_singleton.
Qed.

Lemma dict_get_app_fresh (k : string) (pre post : dict F) :
  k ∉ map fst pre -> dict_get k (pre ++ post) = dict_get k post.
Proof.
  induction pre as [|[k' v'] pre IH]; simpl; intros Hk; [reflexivity|].
  destruct (String.eqb_spec k k') as [->|Hne].
  - exfalso. apply Hk. left.
  - apply IH. intros Hin. apply Hk. right. exact Hin.
Qed.

(** Reading the dict back key by key visits its entries in order. *)
Lemma total_dmags_entries (post : dict F) :
  forall pre obs,
    NoDup (map fst (pre ++ post)) ->
    total_dmags (map fst post) (pre ++ post) obs = add_all (map snd post) obs.
Proof.
  induction post as [|[k v] post IH]; simpl; intros pre obs Hnd; [reflexivity|].
  rewrite dict_get_app_fresh; simpl.
  2:{ rewrite fmap_app in Hnd. apply NoDup_app in Hnd as (_ & Hdisj & _).
      intros Hin. apply (Hdisj k Hin). left. }
  rewrite String.eqb_refl.
  destruct (iadd obs v) as [obs1|e]; simpl; [|reflexivity].
  specialize (IH (pre ++ [(k, v)]) obs1).
  rewrite <- app_assoc in IH. simpl in IH. apply IH, Hnd.
Qed.

Lemma dict_get_set (k k' : string) (v : list F) (d : dict F) :
  dict_get k (dict_set k' v d)
  = if String.eqb k k' then Ok v else dict_get k d.
Proof.
  induction d as [|[k0 v0] d IH]; simpl.
  - destruct (String.eqb k k'); reflexivity.
  - destruct (String.eqb_spec k' k0) as [->|Hne]; simpl.
    + destruct (String.eqb k k0); reflexivity.
    + rewrite IH. destruct (String.eqb_spec k k0) as [->|Hne'];
        [|reflexivity].
      destruct (String.eqb_spec k0 k'); [congruence | reflexivity].
Qed.

Lemma dict_get_replay (k : string) (produced : list (string * list F)) :
  forall d : dict F,
    dict_get k (fold_left (fun d kv => dict_set kv.1 kv.2 d) produced d)
    = match latest k produced with
      | Some v => Ok v
      | None => dict_get k d
      end.
Proof.
  induction produced as [|[k' v] produced IH]; simpl; intros d; [reflexivity|].
  rewrite IH. destruct (latest k produced); [reflexivity|].
  rewrite dict_get_set. destruct (String.eqb k k'); reflexivity.
Qed.

(** ** The offsets *)

Lemma apply_offsets_NoDup (offsets : list (Offset F)) stars_in visit :
  forall dmags dmags',
    NoDup (map fst dmags) ->
    apply_offsets offsets stars_in visit dmags = Ok dmags' ->
    NoDup (map fst dmags').
Proof.
  induction offsets as [|offset offsets IH]; simpl; intros dmags dmags' Hnd.
  - intros [= <-]. exact Hnd.
  - destruct (call offset stars_in visit dmags) as [d|e]; [|discriminate].
    apply IH, dict_set_NoDup, Hnd.
Qed.

(** The dict at the end of the loop is the dict replayed from what the
    offsets returned. *)
Lemma apply_offsets_deltas (offsets : list (Offset F)) stars_in visit :
  forall dmags dmags',
    apply_offsets offsets stars_in visit dmags = Ok dmags' ->
    exists produced,
      offset_deltas offsets stars_in visit dmags = Ok produced
      /\ map fst produced = map newkey offsets
      /\ dmags' = fold_left (fun d kv => dict_set kv.1 kv.2 d) produced dmags.
Proof.
  induction offsets as [|offset offsets IH]; simpl; intros dmags dmags'.
  - intros [= <-]. exists []. auto.
  - destruct (call offset stars_in visit dmags) as [d|e]; [|discriminate].
    simpl. intros Hrest. destruct (IH _ _ Hrest) as (produced & -> & Hkeys & ->).
    simpl. eexists. split; [reflexivity|]. simpl. rewrite Hkeys. auto.
Qed.

Lemma offset_deltas_apply (offsets : list (Offset F)) stars_in visit :
  forall dmags produced,
    offset_deltas offsets stars_in visit dmags = Ok produced ->
    apply_offsets offsets stars_in visit dmags
    = Ok (fold_left (fun d kv => dict_set kv.1 kv.2 d) produced dmags).
Proof.
  induction offsets as [|offset offsets IH]; simpl; intros dmags produced.
  - intros [= <-]. reflexivity.
  - destruct (call offset stars_in visit dmags) as [d|e]; [|discriminate].
    simpl.
    destruct (offset_deltas offsets stars_in visit _) as [rest|e] eqn:Hrest;
      [|discriminate].
    simpl. intros [= <-]. simpl. apply IH, Hrest.
Qed.

(** With pairwise distinct keys nothing is overwritten: the dict lists
    every delta, in call order. *)
Lemma replay_distinct (produced : list (string * list F)) :
  forall dmags,
    NoDup (map fst dmags ++ map fst produced) ->
    fold_left (fun d kv => dict_set kv.1 kv.2 d) produced dmags
    = dmags ++ produced.
Proof.
  induction produced as [|[k d] produced IH]; simpl; intros dmags Hnd.
  - rewrite app_nil_r. reflexivity.
  - rewrite dict_set_fresh.
    2:{ apply NoDup_app in Hnd as (_ & Hdisj & _).
        intros Hin. apply (Hdisj k Hin). left. }
    rewrite IH.
    + rewrite <- app_assoc. reflexivity.
    + rewrite fmap_app. simpl. rewrite <- app_assoc. exact Hnd.
Qed.

Lemma offset_deltas_defined (offsets : list (Offset F)) stars_in visit :
  (forall offset dmags, offset ∈ offsets ->
     exists d, call offset stars_in visit dmags = Ok d) ->
  forall dmags, exists produced,
    offset_deltas offsets stars_in visit dmags = Ok produced.
Proof.
  induction offsets as [|offset offsets IH]; simpl; intros Hcalls dmags.
  - eauto.
  - destruct (Hcalls offset dmags) as [d ->]; [left|]. simpl.
    destruct (IH (fun o dm Ho => Hcalls o dm (list_elem_of_further _ _ _ Ho))
                (dict_set (newkey offset) d dmags)) as [rest ->].
    simpl. eauto.
Qed.

Lemma apply_offsets_empty (offsets : list (Offset F)) visit :
  (forall offset dmags, offset ∈ offsets ->
     call offset [] visit dmags = Ok []) ->
  forall dmags,
    Forall (fun kv => kv.2 = []) dmags ->
    exists dmags',
      apply_offsets offsets [] visit dmags = Ok dmags'
      /\ Forall (fun kv => kv.2 = []) dmags'.
Proof.
  induction offsets as [|offset offsets IH]; simpl; intros Hcalls dmags Hd.
  - eauto.
  - rewrite Hcalls by left.
    apply IH.
    + intros o dm Ho. apply Hcalls. right. exact Ho.
    + clear -Hd. induction Hd as [|[k' v'] d Hkv Hd IHd]; simpl.
      * repeat constructor.
      * destruct (String.eqb (newkey offset) k'); constructor; auto.
Qed.

Lemma add_all_empty (ds : list (list F)) :
  Forall (fun d => d = []) ds -> add_all ds [] = Ok [].
Proof.
  induction 1 as [|d ds -> _ IH]; simpl; [reflexivity | exact IH].
Qed.

End ArrayFacts.

(* ------------------------------------------------------------------ *)
(** * The k-d tree and the selection of candidates *)

Section TreeFacts.
Context {F : Type} `{Arith F} `{Trig F} `{Collaborators F}.

Lemma elem_of_query_ball_point (t : KDTree F) pt r (i : nat) :
  i ∈ query_ball_point t pt r
  <-> exists p, kd_data t !! i = Some p /\ leb (distance p pt) r = true.
Proof.
  unfold query_ball_point. rewrite list_elem_of_fmap. split.
  - intros ([j p] & -> & Hin). apply list_elem_of_filter in Hin as [Hle Hin].
    apply elem_of_lookup_imap in Hin as (j' & q & [= -> ->] & Hq).
    exists q. auto.
  - intros (p & Hp & Hle). exists (i, p). split; [reflexivity|].
    apply list_elem_of_filter. split; [exact Hle|].
    apply elem_of_lookup_imap. exists i, p. auto.
Qed.

Lemma zip3_aligned (ras decs : list F) :
  zip3 (zip_with mul (map cos decs) (map cos ras))
       (zip_with mul (map cos decs) (map sin ras)) (map sin decs)
  = zip_with treexyz ras decs.
Proof.
  revert decs. induction ras as [|r ras IH]; intros [|d decs]; simpl;
    try reflexivity.
  rewrite IH. reflexivity.
Qed.

Lemma zip3_single_ra (r0 : F) (decs : list F) :
  zip3 (map (fun a' => mul a' (cos r0)) (map cos decs))
       (map (fun a' => mul a' (sin r0)) (map cos decs)) (map sin decs)
  = map (treexyz r0) decs.
Proof.
  induction decs as [|d decs IH]; simpl; [reflexivity|].
  rewrite IH. reflexivity.
Qed.

(** [treexyz] on arrays followed by [zip], against [tree_points]. *)
Lemma treexyz_arrays_points (ras decs : list F) :
  match tree_points ras decs with
  | Some data =>
      exists x y z,
        treexyz_arrays ras decs = Ok (x, y, z) /\ zip3 x y z = data
  | None => exists msg, treexyz_arrays ras decs = Raise (ValueError msg)
  end.
Proof.
  unfold tree_points, treexyz_arrays, broadcast.
  rewrite !length_map, (Nat.eqb_sym (length decs) (length ras)).
  destruct (Nat.eqb_spec (length ras) (length decs)) as [Hlen|Hlen].
  - do 3 eexists. split; [reflexivity | apply zip3_aligned].
  - destruct ras as [|r0 [|r1 ras]], decs as [|d0 [|d1 decs]]; simpl in *;
      try lia;
      try (eexists; reflexivity);
      try (do 3 eexists; split; [reflexivity|]; simpl; try reflexivity).
    rewrite (zip3_single_ra r0 decs). reflexivity.
Qed.

Lemma tree_points_cases (ras decs : list F) (data : list (F * F * F)) :
  tree_points ras decs = Some data
  <-> (length ras = length decs /\ data = zip_with treexyz ras decs)
      \/ (exists r0, ras = [r0] /\ length decs <> 1%nat
                     /\ data = map (treexyz r0) decs)
      \/ (exists d0, decs = [d0] /\ length ras <> 1%nat
                     /\ data = match ras with
                               | [] => []
                               | r0 :: _ => [treexyz r0 d0]
                               end).
Proof.
  unfold tree_points.
  destruct (Nat.eqb_spec (length ras) (length decs)) as [Hlen|Hlen].
  - split.
    + intros [= <-]. left. auto.
    + intros [[_ ->]|[(r0 & -> & Hd & _)|(d0 & -> & Hr & _)]];
        [reflexivity | simpl in Hlen; congruence | simpl in Hlen; congruence].
  - destruct ras as [|r0 [|r1 ras]], decs as [|d0 [|d1 decs]]; simpl in *;
      try lia; split;
      try (intros [= <-]); try discriminate;
      try (intros [[Hl _]|[(r & Hr & Hd & Hdata)|(d & Hd & Hr & Hdata)]];
           try discriminate; try lia; try congruence);
      try (right; left; eexists; split; [reflexivity|];
           split; [lia | reflexivity]);
      try (right; right; eexists; split; [reflexivity|];
           split; [lia | reflexivity]).
Qed.

(** [buildTree] returns a tree exactly when no angle is out of range, the
    lengths broadcast to at least one point, every point is finite and the
    leaf size is one scipy accepts; the tree holds the points in order. *)
Lemma buildTree_Ok (ras decs : list F) leafsize (t : KDTree F) :
  buildTree ras decs leafsize = Ok t
  <-> (forall a, a ∈ ras ++ decs -> gtb (abs a) (mul pi (of_Z 2)) = false)
      /\ exists data,
           tree_points ras decs = Some data
           /\ data <> []
           /\ forallb finite_point data = true
           /\ (1 <= leafsize < 2 ^ 63)%Z
           /\ t = {| kd_data := data; kd_leafsize := leafsize |}.
Proof.
  unfold buildTree.
  destruct (existsb _ ras || existsb _ decs) eqn:Hany.
  - split; [discriminate|]. intros (Hrange & _). exfalso.
    apply orb_true_iff in Hany as [Hex|Hex];
      apply existsb_exists in Hex as (a & Hin & Ha);
      apply list_elem_of_In in Hin;
      rewrite Hrange in Ha; try discriminate;
      apply elem_of_app; auto.
  - apply orb_false_iff in Hany as [Hra Hdec].
    assert (Hrange : forall a, a ∈ ras ++ decs ->
              gtb (abs a) (mul pi (of_Z 2)) = false).
    { intros a Hin. destruct (gtb (abs a) (mul pi (of_Z 2))) eqn:Ha;
        [|reflexivity].
      apply elem_of_app in Hin as [Hin|Hin]; apply list_elem_of_In in Hin.
      - rewrite <- Hra. symmetry. apply existsb_exists. eauto.
      - rewrite <- Hdec. symmetry. apply existsb_exists. eauto. }
    pose proof (treexyz_arrays_points ras decs) as Hpoints.
    destruct (tree_points ras decs) as [data|].
    2:{ destruct Hpoints as [msg ->]. simpl.
        split; [discriminate|]. intros (_ & data & Hd & _). discriminate. }
    destruct Hpoints as (x & y & z & -> & Hzip). cbn [res_bind].
    rewrite Hzip. unfold kdtree.
    destruct data as [|p data].
    { simpl. split; [discriminate|].
      intros (_ & data' & [= <-] & Hne & _). congruence. }
    destruct (Z.ltb_spec 0 (3 * Z.of_nat (length (p :: data))));
      [|simpl in *; lia].
    destruct (Z.leb_spec (- 2 ^ 63) leafsize);
      destruct (Z.ltb_spec leafsize (2 ^ 63)); cbn [andb negb];
      try (split; [discriminate|];
           intros (_ & data' & _ & _ & _ & Hleaf & _); lia).
    destruct (forallb finite_point (p :: data)) eqn:Hfin; cbn [negb].
    2:{ split; [discriminate|].
        intros (_ & data' & [= <-] & _ & Hfin' & _). congruence. }
    destruct (Z.ltb_spec leafsize 1).
    { split; [discriminate|].
      intros (_ & data' & _ & _ & _ & Hleaf & _). lia. }
    split.
    + intros [= <-]. split; [exact Hrange|].
      exists (p :: data). repeat split; auto; lia.
    + intros (_ & data' & [= <-] & _ & _ & _ & ->). reflexivity.
Qed.

(** With a leaf size in the range of a C integer, [buildTree] raises
    nothing but [ValueError]. *)
Lemma buildTree_raises_ValueError (ras decs : list F) leafsize e :
  (- 2 ^ 63 <= leafsize < 2 ^ 63)%Z ->
  buildTree ras decs leafsize = Raise e -> exists msg, e = ValueError msg.
Proof.
  intros Hleaf. unfold buildTree.
  destruct (existsb _ ras || existsb _ decs); [intros [= <-]; eauto|].
  pose proof (treexyz_arrays_points ras decs) as Hpoints.
  destruct (tree_points ras decs) as [data|].
  2:{ destruct Hpoints as [msg ->]. simpl. intros [= <-]. eauto. }
  destruct Hpoints as (x & y & z & -> & Hzip). cbn [res_bind].
  destruct (0 <? _)%Z; [|intros [= <-]; eauto].
  unfold kdtree.
  destruct (Z.leb_spec (- 2 ^ 63) leafsize);
    destruct (Z.ltb_spec leafsize (2 ^ 63)); cbn [andb negb]; try lia.
  destruct (forallb finite_point _); cbn [negb]; [|intros [= <-]; eauto].
  destruct (leafsize <? 1)%Z; [intros [= <-]; eauto | discriminate].
Qed.

Lemma star_tree_points (stars_array : list (Star F)) :
  tree_points
    (map (fun r => radians (ra (star r))) (merge_arrays stars_array))
    (map (fun r => radians (decl (star r))) (merge_arrays stars_array))
  = Some (map star_direction (merge_arrays stars_array)).
Proof.
  unfold tree_points. rewrite !length_map, Nat.eqb_refl.
  rewrite zip_with_fmap_l, zip_with_fmap_r, zip_with_diag. reflexivity.
Qed.

(** The tree of a run: it exists exactly when no star is out of range,
    there is a star and every direction is finite, and it holds the
    directions of the stars in catalogue order. *)
Lemma star_tree_Ok (stars_array : list (Star F)) (t : KDTree F) :
  star_tree stars_array = Ok t
  <-> (forall st, st ∈ stars_array -> ~ out_of_range st)
      /\ stars_array <> []
      /\ forallb finite_point (map star_direction (merge_arrays stars_array))
         = true
      /\ t = {| kd_data := map star_direction (merge_arrays stars_array);
                kd_leafsize := 100 |}.
Proof.
  unfold star_tree. rewrite buildTree_Ok, star_tree_points. split.
  - intros (Hrange & data & [= <-] & Hne & Hfin & _ & ->).
    split; [|split; [|split; [exact Hfin | reflexivity]]].
    + intros st Hin [Hbad|Hbad]; rewrite Hrange in Hbad; try discriminate;
        apply elem_of_app; [left | right];
        apply list_elem_of_fmap; exists (zero_row st);
        (split; [reflexivity | apply list_elem_of_fmap; eauto]).
    + intros ->. apply Hne. reflexivity.
  - intros (Hrange & Hne & Hfin & ->). split.
    + intros a Hin.
      destruct (gtb (abs a) (mul pi (of_Z 2))) eqn:Ha; [|reflexivity].
      exfalso.
      apply elem_of_app in Hin as [Hin|Hin];
        apply list_elem_of_fmap in Hin as (r & -> & Hr);
        apply list_elem_of_fmap in Hr as (st & -> & Hst);
        apply (Hrange st Hst); [left | right]; exact Ha.
    + eexists. split; [reflexivity|].
      split; [destruct stars_array; [congruence | discriminate]|].
      split; [exact Hfin|]. split; [lia | reflexivity].
Qed.

Lemma star_tree_data (stars_array : list (Star F)) (t : KDTree F) :
  star_tree stars_array = Ok t ->
  kd_data t = map star_direction (merge_arrays stars_array)
  /\ stars_array <> [].
Proof.
  intros Hbuild. apply star_tree_Ok in Hbuild as (_ & Hne & _ & ->).
  split; [reflexivity | exact Hne].
Qed.

Lemma getitem_Ok (a : list (Row F)) (indices : list nat) rows :
  getitem a indices = Ok rows
  <-> Forall2 (fun i r => a !! i = Some r) indices rows.
Proof.
  unfold getitem. rewrite <- mapM_Some.
  destruct (mapM _ indices) as [rows'|]; split; congruence.
Qed.

(** The tree indexes the catalogue it was built from, so the selection
    of a visit whose direction is finite never raises. *)
Lemma candidates_defined (stars_array : list (Star F)) t radius n_patches
    visit :
  star_tree stars_array = Ok t ->
  finite_point (visit_direction visit) = true ->
  exists a, candidates (merge_arrays stars_array) t radius n_patches visit
            = Ok a.
Proof.
  intros Ht Hfin. apply star_tree_data in Ht as [Hdata _].
  unfold candidates, kdtree_query, getitem. rewrite Hfin. cbn [res_bind].
  destruct (mapM _ _) as [rows|] eqn:Hrows; simpl; [eauto|].
  exfalso. apply eq_None_not_Some in Hrows. apply Hrows.
  apply mapM_is_Some, Forall_forall. intros i Hi. simpl.
  apply elem_of_query_ball_point in Hi as (p & Hp & _).
  rewrite Hdata, list_lookup_fmap in Hp.
  destruct (merge_arrays stars_array !! i); [eauto | discriminate].
Qed.

(** Every candidate is a catalogue row, projected and patched, whose
    direction is within [radius] of the visit's. *)
Lemma candidates_within (stars_array : list (Star F)) t radius n_patches
    visit a :
  star_tree stars_array = Ok t ->
  candidates (merge_arrays stars_array) t radius n_patches visit = Ok a ->
  Forall (fun r =>
            exists s, s ∈ stars_array /\ star r = s
            /\ leb (distance (star_direction r) (visit_direction visit))
                   radius = true) a.
Proof.
  intros Ht. apply star_tree_data in Ht as [Hdata _].
  unfold candidates, kdtree_query.
  destruct (finite_point _); cbn [res_bind]; [|discriminate].
  destruct (getitem _ _) as [rows|e] eqn:Hrows; simpl; [|discriminate].
  intros [= <-]. apply getitem_Ok in Hrows.
  apply Forall_fmap, Forall_fmap, Forall_forall. intros r Hr.
  apply list_elem_of_lookup in Hr as [j Hj].
  destruct (Forall2_lookup_r _ _ _ _ _ Hrows Hj) as (i & Hi & Hrow).
  assert (Hin : i ∈ query_ball_point t (visit_direction visit) radius)
    by (apply list_elem_of_lookup; eauto).
  apply elem_of_query_ball_point in Hin as (p & Hp & Hle).
  rewrite Hdata, list_lookup_fmap, Hrow in Hp. simpl in Hp.
  injection Hp as <-.
  unfold merge_arrays in Hrow. rewrite list_lookup_fmap in Hrow.
  destruct (stars_array !! i) as [s0|] eqn:Hs0; [|discriminate].
  injection Hrow as <-.
  exists s0. simpl. unfold with_patches, with_projection.
  destruct (stars_project visit _) as [[px py] prad]. simpl.
  destruct (assign_patches visit n_patches _) as [pid sub]. simpl.
  repeat split; [|exact Hle].
  apply list_elem_of_lookup. eauto.
Qed.

End TreeFacts.

(* ------------------------------------------------------------------ *)
(** * The code against its pure reading *)

Section PipelineFacts.
Context {F : Type} `{Arith F} `{Trig F} `{Collaborators F}.

Lemma extends_refl (s : State F) : extends s s.
Proof.
  repeat split; auto. exists []. rewrite app_nil_r. auto.
Qed.

Lemma extends_trans (s1 s2 s3 : State F) :
  extends s1 s2 -> extends s2 s3 -> extends s1 s3.
Proof.
  intros (Hn1 & Hh1 & Hs1 & evs1 & He1 & Hp1) (Hn2 & Hh2 & Hs2 & evs2 & He2 & Hp2).
  repeat split.
  - lia.
  - intros l Hl. rewrite Hh2 by lia. apply Hh1, Hl.
  - congruence.
  - exists (evs1 ++ evs2). rewrite He2, He1, app_assoc. split; auto.
    apply Forall_app; auto.
Qed.

Ltac extends_tac :=
  repeat split; simpl;
  [ lia
  | intros; repeat (rewrite lookup_insert_ne by lia); reflexivity
  | first [ exists []; rewrite app_nil_r; split; [reflexivity | constructor]
          | eexists; split; [reflexivity | repeat constructor] ] ].

(** One turn of the loop computes [visit_block] on the catalogue behind
    [stars] and changes no array that existed before. *)
Lemma visit_body_run stars starTree radius offsets lsst_filter n_patches
    uncert_floor verbose n_visits acc i visit (s : State F) :
  let out := visit_body stars starTree radius offsets lsst_filter n_patches
               uncert_floor verbose n_visits acc i visit s in
  out.1 = res_bind
            (visit_block (default [] (heap s !! stars)) starTree radius
               offsets lsst_filter n_patches uncert_floor visit)
            (fun block => Ok (acc ++ [block]))
  /\ extends s out.2.
Proof.
  unfold visit_body, visit_block, visit_rows, candidates, observed_mags,
    visit_direction, true_mags.
  destruct (treexyz _ _) as [[vx vy] vz].
  unfold bind, load, lift, alloc, store, ret, kdtree_query; simpl.
  destruct (is_finite vx && is_finite vy && is_finite vz); simpl.
  2:{ split; [reflexivity | apply extends_refl]. }
  destruct (getitem _ _) as [sel|e]; simpl.
  2:{ split; [reflexivity | apply extends_refl]. }
  repeat (rewrite lookup_insert_eq; simpl).
  destruct (apply_offsets _ _ _ _) as [dmags|e]; simpl;
    [|split; [reflexivity | extends_tac]].
  destruct (total_dmags _ _ _) as [obs_mag|e]; simpl;
    [|split; [reflexivity | extends_tac]].
  destruct (set_column with_observed_mag _ _) as [a1|e]; simpl;
    [|split; [reflexivity | extends_tac]].
  repeat (rewrite lookup_insert_eq; simpl).
  destruct (set_column with_mag_uncert _ _) as [a2|e]; simpl;
    [|split; [reflexivity | extends_tac]].
  destruct verbose; simpl; repeat (rewrite lookup_insert_eq; simpl);
    (split; [reflexivity | extends_tac]).
Qed.

Lemma observed_mags_entries offsets lsst_filter visit (a : list (Row F)) :
  observed_mags offsets lsst_filter visit a
  = res_bind (apply_offsets offsets a visit [])
      (fun dmags => add_all (map snd dmags) (true_mags lsst_filter a)).
Proof.
  unfold observed_mags.
  destruct (apply_offsets offsets a visit []) as [dmags|e] eqn:Hoff; simpl;
    [|reflexivity].
  apply (total_dmags_entries dmags []). simpl.
  eapply apply_offsets_NoDup; [|exact Hoff]. constructor.
Qed.

Lemma observed_mags_length offsets lsst_filter visit (a : list (Row F)) obs :
  observed_mags offsets lsst_filter visit a = Ok obs -> length obs = length a.
Proof.
  rewrite observed_mags_entries.
  destruct (apply_offsets offsets a visit []) as [dmags|e]; simpl;
    [|discriminate].
  intros Hall. apply add_all_length in Hall. rewrite Hall.
  unfold true_mags. apply length_map.
Qed.

Lemma output_rows_records lsst_filter uncert_floor visit :
  forall (a : list (Row F)) (obs : list F),
    map (output_row lsst_filter)
      (zip_with with_mag_uncert (zip_with with_observed_mag a obs)
         (map (mag_error lsst_filter uncert_floor visit) obs))
    = zip_with (record_of lsst_filter uncert_floor visit) a obs.
Proof.
  induction a as [|r a IH]; intros [|m obs]; simpl; try reflexivity.
  rewrite IH. reflexivity.
Qed.

(** The records of a visit, in closed form. *)
Lemma visit_block_records catalogue starTree radius offsets lsst_filter
    n_patches uncert_floor visit :
  visit_block catalogue starTree radius offsets lsst_filter n_patches
    uncert_floor visit
  = res_bind (candidates catalogue starTree radius n_patches visit) (fun a =>
    res_bind (observed_mags offsets lsst_filter visit a) (fun obs =>
    Ok (zip_with (record_of lsst_filter uncert_floor visit) a obs))).
Proof.
  unfold visit_block, visit_rows.
  destruct (candidates _ _ _ _ _) as [a|e]; simpl; [|reflexivity].
  destruct (observed_mags _ _ _ _) as [obs|e] eqn:Hobs; simpl; [|reflexivity].
  apply observed_mags_length in Hobs.
  unfold set_column. rewrite Hobs, Nat.eqb_refl. simpl.
  rewrite length_map, length_zip_with, Hobs, Nat.min_id, Nat.eqb_refl. simpl.
  rewrite output_rows_records. reflexivity.
Qed.

(** Where one turn writes: only into the array it allocates, which ends
    up holding [visit_rows]. *)
Lemma visit_body_heap stars starTree radius offsets lsst_filter n_patches
    uncert_floor verbose n_visits acc i visit (s : State F) :
  let out := visit_body stars starTree radius offsets lsst_filter n_patches
               uncert_floor verbose n_visits acc i visit s in
  (forall l, l <> next_ref s -> heap out.2 !! l = heap s !! l)
  /\ (forall acc', out.1 = Ok acc' ->
       exists rows,
         visit_rows (default [] (heap s !! stars)) starTree radius offsets
           lsst_filter n_patches uncert_floor visit = Ok rows
         /\ heap out.2 !! next_ref s = Some rows).
Proof.
  unfold visit_body, visit_rows, candidates, observed_mags,
    visit_direction, true_mags, mag_error.
  destruct (treexyz _ _) as [[vx vy] vz].
  unfold bind, load, lift, alloc, store, ret, kdtree_query; simpl.
  destruct (is_finite vx && is_finite vy && is_finite vz); simpl.
  2:{ split; [reflexivity | discriminate]. }
  destruct (getitem _ _) as [sel|e]; simpl.
  2:{ split; [reflexivity | discriminate]. }
  repeat (rewrite lookup_insert_eq; simpl).
  destruct (apply_offsets _ _ _ _) as [dmags|e]; simpl;
    [|split; [intros; repeat (rewrite lookup_insert_ne by auto); reflexivity
             | discriminate]].
  destruct (total_dmags _ _ _) as [obs_mag|e]; simpl;
    [|split; [intros; repeat (rewrite lookup_insert_ne by auto); reflexivity
             | discriminate]].
  destruct (set_column with_observed_mag _ _) as [a1|e]; simpl;
    [|split; [intros; repeat (rewrite lookup_insert_ne by auto); reflexivity
             | discriminate]].
  repeat (rewrite lookup_insert_eq; simpl).
  destruct (set_column with_mag_uncert _ _) as [a2|e]; simpl;
    [|split; [intros; repeat (rewrite lookup_insert_ne by auto); reflexivity
             | discriminate]].
  destruct verbose; simpl;
    (split;
     [ intros; repeat (rewrite lookup_insert_ne by auto); reflexivity
     | intros _ _; exists a2; split;
       [reflexivity | apply lookup_insert_eq] ]).
Qed.

Lemma res_mapM_Ok {A B} (f : A -> res B) (l : list A) (bs : list B) :
  res_mapM f l = Ok bs <-> Forall2 (fun a b => f a = Ok b) l bs.
Proof.
  revert bs. induction l as [|a l IH]; simpl; intros bs.
  - split; [intros [= <-]; constructor | intros Hf; inversion Hf; reflexivity].
  - destruct (f a) as [b|e] eqn:Hfa; simpl.
    + destruct (res_mapM f l) as [bs'|e] eqn:Hl; simpl.
      * split.
        -- intros [= <-]. constructor; [exact Hfa | apply IH; reflexivity].
        -- intros Hf. inversion Hf as [|? b' ? bs'' Hb Hrest]; subst.
           apply IH in Hrest. congruence.
      * split; [discriminate|].
        intros Hf. inversion Hf as [|? b' ? bs'' Hb Hrest]; subst.
        apply IH in Hrest. discriminate.
    + split; [discriminate|].
      intros Hf. inversion Hf; subst. congruence.
Qed.

Lemma for_visits_run stars starTree radius offsets lsst_filter n_patches
    uncert_floor verbose n_visits visits :
  forall i acc (s : State F),
    (stars < next_ref s)%nat ->
    let out := for_visits
                 (visit_body stars starTree radius offsets lsst_filter
                    n_patches uncert_floor verbose n_visits)
                 i visits acc s in
    out.1 = res_bind
              (res_mapM
                 (visit_block (default [] (heap s !! stars)) starTree radius
                    offsets lsst_filter n_patches uncert_floor)
                 visits)
              (fun blocks => Ok (acc ++ blocks))
    /\ extends s out.2.
Proof.
  induction visits as [|visit visits IH]; intros i acc s Hstars; simpl.
  - rewrite app_nil_r. split; [reflexivity | apply extends_refl].
  - unfold bind.
    pose proof (visit_body_run stars starTree radius offsets lsst_filter
                  n_patches uncert_floor verbose n_visits acc i visit s)
      as [Hres Hext].
    destruct (visit_body _ _ _ _ _ _ _ _ _ _ _ _ s) as [r s1].
    simpl in Hres, Hext. subst r.
    destruct (visit_block _ _ _ _ _ _ _ visit) as [block|e]; simpl.
    2:{ split; [reflexivity | exact Hext]. }
    assert (Hstars1 : (stars < next_ref s1)%nat)
      by (destruct Hext as [? _]; lia).
    destruct (IH (S i) (acc ++ [block]) s1 Hstars1) as [Hres1 Hext1].
    assert (Hcat : heap s1 !! stars = heap s !! stars)
      by (destruct Hext as (_ & Hh & _); apply Hh, Hstars).
    rewrite Hcat in Hres1.
    split; [|eapply extends_trans; eassumption].
    rewrite Hres1.
    destruct (res_mapM _ visits) as [blocks|e]; simpl; [|reflexivity].
    rewrite <- app_assoc. reflexivity.
Qed.

(** With a list of offsets, [generate_catalog] returns [run_result]; the
    catalogue it allocated still holds [merge_arrays stars_array] at the
    end, older arrays are as they were, and nothing but progress lines
    was emitted.  When the tree cannot be built or the seed is refused the
    run stops in [with_catalogue]. *)
Lemma generate_catalog_run visits stars_array offsets lsst_filter n_patches
    radius_fov seed uncert_floor verbose (s : State F) :
  let out := generate_catalog visits stars_array (Some offsets) lsst_filter
               n_patches radius_fov seed uncert_floor verbose s in
  out.1 = run_result visits stars_array offsets lsst_filter n_patches
            radius_fov seed uncert_floor
  /\ heap out.2 !! next_ref s = Some (merge_arrays stars_array)
  /\ (forall l, (l < next_ref s)%nat -> heap out.2 !! l = heap s !! l)
  /\ (exists evs, events out.2 = events s ++ evs /\ Forall is_progress evs)
  /\ (forall e, star_tree stars_array = Raise e ->
       out.2 = with_catalogue s stars_array)
  /\ (valid_seed seed = false -> out.2 = with_catalogue s stars_array).
Proof.
  intros out. destruct out as [r s'] eqn:Hout. subst out. simpl.
  revert Hout. unfold generate_catalog, run_result, star_tree, check_seed.
  unfold bind at 1. unfold alloc at 1.
  unfold bind at 1. unfold load at 1. simpl.
  rewrite lookup_insert_eq. simpl.
  unfold bind at 1.
  destruct (buildTree _ _ _) as [starTree|e]; simpl.
  2:{ intros [= <- <-]. simpl. repeat split.
      - apply lookup_insert_eq.
      - intros l Hl. apply lookup_insert_ne. lia.
      - exists []. rewrite app_nil_r. split; [reflexivity | constructor]. }
  unfold bind at 1. unfold np_random_seed at 1.
  destruct (valid_seed seed); simpl.
  2:{ intros [= <- <-]. simpl. repeat split.
      - apply lookup_insert_eq.
      - intros l Hl. apply lookup_insert_ne. lia.
      - exists []. rewrite app_nil_r. split; [reflexivity | constructor]. }
  unfold bind at 1.
  match goal with
  | |- context [for_visits ?body 0%nat visits [] ?s1] =>
      pose proof (for_visits_run (next_ref s) starTree (treeRadius radius_fov)
                    offsets lsst_filter n_patches uncert_floor verbose
                    (length visits) visits 0%nat [] s1) as Hloop;
      destruct (for_visits body 0%nat visits [] s1) as [r2 s2]
  end.
  simpl in Hloop. destruct Hloop as [Hres Hext]; [lia|].
  rewrite lookup_insert_eq in Hres. simpl in Hres. subst r2.
  destruct Hext as (Hn & Hh & Hseed & evs & Hev & Hprog). simpl in *.
  assert (Hfinal :
    heap s2 !! next_ref s = Some (merge_arrays stars_array)
    /\ (forall l, (l < next_ref s)%nat -> heap s2 !! l = heap s !! l)
    /\ (exists evs, events s2 = events s ++ evs /\ Forall is_progress evs)).
  { repeat split.
    - rewrite Hh by lia. apply lookup_insert_eq.
    - intros l Hl. rewrite Hh by lia. apply lookup_insert_ne. lia.
    - exists evs. auto. }
  destruct (res_mapM _ visits) as [blocks|e]; simpl.
  - unfold bind, lift, ret.
    destruct (concatenate blocks) as [result|e]; simpl;
      intros [= <- <-]; (split; [reflexivity|]);
      repeat split; try apply Hfinal; intros; discriminate.
  - intros [= <- <-]. split; [reflexivity|].
    repeat split; try apply Hfinal; intros; discriminate.
Qed.

(** A run that returns records returned one block per visit. *)
Lemma generate_catalog_blocks visits stars_array offsets lsst_filter
    n_patches radius_fov seed uncert_floor verbose (s : State F) result :
  (generate_catalog visits stars_array offsets lsst_filter n_patches
     radius_fov seed uncert_floor verbose s).1 = Ok (Some result) ->
  exists offs starTree blocks,
    offsets = Some offs
    /\ star_tree stars_array = Ok starTree
    /\ visits <> []
    /\ result = concat blocks
    /\ Forall2
         (fun visit block =>
            visit_block (merge_arrays stars_array) starTree
              (treeRadius radius_fov) offs lsst_filter n_patches
              uncert_floor visit = Ok block)
         visits blocks.
Proof.
  destruct offsets as [offs|]; [|discriminate].
  intros Hrun.
  pose proof (generate_catalog_run visits stars_array offs lsst_filter
                n_patches radius_fov seed uncert_floor verbose s)
    as (Hres & _).
  cbv zeta in Hres. rewrite Hrun in Hres. symmetry in Hres.
  unfold run_result in Hres.
  destruct (star_tree stars_array) as [starTree|e]; simpl in Hres;
    [|discriminate].
  destruct (check_seed seed) as [[]|e]; simpl in Hres; [|discriminate].
  destruct (res_mapM _ visits) as [blocks|e] eqn:Hblocks; simpl in Hres;
    [|discriminate].
  apply res_mapM_Ok in Hblocks.
  destruct blocks as [|block blocks]; simpl in Hres; [discriminate|].
  injection Hres as <-.
  exists offs, starTree, (block :: blocks).
  repeat split; auto.
  intros ->. inversion Hblocks.
Qed.

(** A run that returns records was given a seed [np.random.seed]
    accepts. *)
Lemma generate_catalog_seed visits stars_array offsets lsst_filter
    n_patches radius_fov seed uncert_floor verbose (s : State F) result :
  (generate_catalog visits stars_array offsets lsst_filter n_patches
     radius_fov seed uncert_floor verbose s).1 = Ok (Some result) ->
  valid_seed seed = true.
Proof.
  destruct offsets as [offs|]; [|discriminate].
  intros Hrun.
  pose proof (generate_catalog_run visits stars_array offs lsst_filter
                n_patches radius_fov seed uncert_floor verbose s)
    as (Hres & _).
  cbv zeta in Hres. rewrite Hrun in Hres. symmetry in Hres.
  unfold run_result, check_seed in Hres.
  destruct (star_tree stars_array) as [starTree|e]; simpl in Hres;
    [|discriminate].
  destruct (valid_seed seed); [reflexivity | discriminate].
Qed.

End PipelineFacts.

(* ------------------------------------------------------------------ *)
(** * Properties of [generate_catalog], for any arithmetic *)

Section Claims.
Context {F : Type} `{Arith F} `{Trig F} `{Collaborators F}.

(** With pairwise distinct keys the dict holds what the offsets
    returned. *)
Lemma recorded_is_produced (offsets : list (Offset F)) a visit ds :
  NoDup (map newkey offsets) ->
  recorded_deltas offsets a visit = Ok ds ->
  produced_deltas offsets a visit = Ok ds.
Proof.
  unfold recorded_deltas, produced_deltas. intros Hnd.
  destruct (apply_offsets offsets a visit []) as [dmags|e] eqn:Hoff; simpl;
    [|discriminate].
  intros [= <-].
  apply apply_offsets_deltas in Hoff as (produced & -> & Hkeys & ->). simpl.
  rewrite replay_distinct; [reflexivity|]. simpl. rewrite Hkeys. exact Hnd.
Qed.

Lemma visit_block_sums catalogue starTree radius offsets lsst_filter
    n_patches uncert_floor visit (block : list (Obs F)) :
  visit_block catalogue starTree radius offsets lsst_filter n_patches
    uncert_floor visit = Ok block ->
  exists a ds,
    candidates catalogue starTree radius n_patches visit = Ok a
    /\ recorded_deltas offsets a visit = Ok ds
    /\ length block = length a
    /\ forall j r o,
         a !! j = Some r -> block !! j = Some o ->
         sums_deltas lsst_filter ds j r o.
Proof.
  rewrite visit_block_records.
  destruct (candidates _ _ _ _ _) as [a|e]; simpl; [|discriminate].
  destruct (observed_mags _ _ _ _) as [obs|e] eqn:Hobs; simpl; [|discriminate].
  intros [= <-].
  pose proof (observed_mags_length _ _ _ _ _ Hobs) as Hlen.
  rewrite observed_mags_entries in Hobs. unfold recorded_deltas.
  destruct (apply_offsets offsets a visit []) as [dmags|e] eqn:Hoff;
    simpl in *; [|discriminate].
  exists a, (map snd dmags).
  split; [reflexivity|]. split; [rewrite Hoff; reflexivity|].
  split; [rewrite length_zip_with; lia|].
  intros j r o Hr Ho.
  apply lookup_zip_with_Some in Ho as (r' & m & -> & Hr' & Hm).
  assert (r' = r) as -> by congruence.
  split; [reflexivity|]. simpl.
  assert (Htrue : true_mags lsst_filter a !! j
                  = Some (mag (star r) (mag_column lsst_filter)))
    by (unfold true_mags; rewrite list_lookup_fmap, Hr; reflexivity).
  destruct (add_all_lookup _ _ _ _ _ Hobs Htrue) as (djs & Hdjs & Hj).
  exists djs. split; [exact Hdjs | congruence].
Qed.

(** C1 (amended).  Every record of a run carries the star's true magnitude
    in the chosen band, and its observed magnitude is that magnitude plus
    the deltas held by [dmags] when the loop over the offsets ends, added
    in key order: one delta per distinct key, the last one stored under
    it.  When the offsets have pairwise distinct keys these are the deltas
    of all the offsets. *)
Theorem observed_mag_sums_recorded_deltas visits stars_array offsets
    lsst_filter n_patches radius_fov seed uncert_floor verbose
    (s : State F) result :
  (generate_catalog visits stars_array (Some offsets) lsst_filter n_patches
     radius_fov seed uncert_floor verbose s).1 = Ok (Some result) ->
  records_sum recorded_deltas visits stars_array offsets lsst_filter
    n_patches radius_fov result
  /\ (NoDup (map newkey offsets) ->
      records_sum produced_deltas visits stars_array offsets lsst_filter
        n_patches radius_fov result).
Proof.
  intros Hrun.
  apply generate_catalog_blocks in Hrun
    as (offs & starTree & blocks & [= <-] & Htree & _ & -> & Hblocks).
  assert (Hrec : records_sum recorded_deltas visits stars_array offsets
                   lsst_filter n_patches radius_fov (concat blocks)).
  { exists starTree, blocks. split; [exact Htree|]. split; [reflexivity|].
    eapply Forall2_impl; [exact Hblocks|]. simpl.
    intros visit block Hblock. apply visit_block_sums in Hblock. exact Hblock. }
  split; [exact Hrec|]. intros Hnd.
  destruct Hrec as (starTree' & blocks' & Htree' & Hconcat & Hall).
  exists starTree', blocks'. split; [exact Htree'|]. split; [exact Hconcat|].
  eapply Forall2_impl; [exact Hall|]. simpl.
  intros visit block (a & ds & Ha & Hds & Hlen & Hsum).
  exists a, ds. split; [exact Ha|].
  split; [apply recorded_is_produced; assumption|].
  split; assumption.
Qed.

Lemma run_result_not_None visits (stars_array : list (Star F)) offsets
    lsst_filter n_patches radius_fov seed uncert_floor :
  run_result visits stars_array offsets lsst_filter n_patches radius_fov
    seed uncert_floor <> Ok None.
Proof.
  unfold run_result.
  destruct (star_tree stars_array); simpl; [|discriminate].
  destruct (check_seed seed); simpl; [|discriminate].
  destruct (res_mapM _ visits); simpl; [|discriminate].
  destruct (concatenate _); simpl; discriminate.
Qed.

(** C4 (amended).  [generate_catalog] refuses to run exactly when
    [offsets] is [None]: it then emits the warning, touches no array and
    returns [None] without raising.  With a list of offsets, the empty
    list included, it emits no warning and never returns [None]. *)
Theorem refuses_exactly_when_offsets_is_None visits stars_array offsets
    lsst_filter n_patches radius_fov seed uncert_floor verbose
    (s : State F) :
  let out := generate_catalog visits stars_array offsets lsst_filter
               n_patches radius_fov seed uncert_floor verbose s in
  match offsets with
  | None =>
      out = (Ok None,
             {| heap := heap s; next_ref := next_ref s;
                events := events s
                  ++ [Warn "Warning, no offsets set, returning without running"];
                np_seed := np_seed s |})
  | Some _ =>
      out.1 <> Ok None
      /\ exists evs, events out.2 = events s ++ evs /\ Forall is_progress evs
  end.
Proof.
  destruct offsets as [offs|]; [|reflexivity].
  pose proof (generate_catalog_run visits stars_array offs lsst_filter
                n_patches radius_fov seed uncert_floor verbose s)
    as (Hres & _ & _ & Hev & _).
  simpl in *. split; [|exact Hev].
  rewrite Hres. apply run_result_not_None.
Qed.

(** C7.  A turn of the loop writes to no array but the one it allocates
    for the candidates, which ends up holding the rows with their derived
    fields; and when [generate_catalog] is done, the merged catalogue it
    created holds what it held at creation and every older array is
    unchanged. *)
Theorem catalogue_is_never_written visits stars_array offsets lsst_filter
    n_patches radius_fov seed uncert_floor verbose (s : State F) :
  (forall stars starTree radius n_visits acc i visit (s0 : State F),
      let turn := visit_body stars starTree radius offsets lsst_filter
                    n_patches uncert_floor verbose n_visits acc i visit s0 in
      (forall l, l <> next_ref s0 -> heap turn.2 !! l = heap s0 !! l)
      /\ (forall acc', turn.1 = Ok acc' ->
           exists rows,
             visit_rows (default [] (heap s0 !! stars)) starTree radius
               offsets lsst_filter n_patches uncert_floor visit = Ok rows
             /\ heap turn.2 !! next_ref s0 = Some rows))
  /\ let out := generate_catalog visits stars_array (Some offsets)
                  lsst_filter n_patches radius_fov seed uncert_floor
                  verbose s in
     heap out.2 !! next_ref s = Some (merge_arrays stars_array)
     /\ forall l, (l < next_ref s)%nat -> heap out.2 !! l = heap s !! l.
Proof.
  split.
  - intros. apply visit_body_heap.
  - pose proof (generate_catalog_run visits stars_array offsets lsst_filter
                  n_patches radius_fov seed uncert_floor verbose s)
      as (_ & Hcat & Hold & _).
    simpl in *. auto.
Qed.

Lemma visit_block_no_offsets catalogue starTree radius lsst_filter n_patches
    uncert_floor visit (a : list (Row F)) :
  candidates catalogue starTree radius n_patches visit = Ok a ->
  visit_block catalogue starTree radius [] lsst_filter n_patches
    uncert_floor visit
  = Ok (zip_with (record_of lsst_filter uncert_floor visit) a
          (true_mags lsst_filter a)).
Proof.
  intros Ha. rewrite visit_block_records, Ha. reflexivity.
Qed.

Lemma no_offsets_blocks visits (stars_array : list (Star F)) starTree
    lsst_filter n_patches radius_fov uncert_floor :
  star_tree stars_array = Ok starTree ->
  Forall (fun visit => finite_point (visit_direction visit) = true) visits ->
  exists blocks,
    Forall2
      (fun visit block =>
         visit_block (merge_arrays stars_array) starTree
           (treeRadius radius_fov) [] lsst_filter n_patches uncert_floor
           visit = Ok block
         /\ Forall (fun o => o_observed_mag o = o_mag o) block)
      visits blocks.
Proof.
  intros Htree Hfin. induction Hfin as [|visit visits' Hvisit _ IH].
  - exists []. constructor.
  - destruct IH as [blocks Hblocks].
    destruct (candidates_defined stars_array starTree
                (treeRadius radius_fov) n_patches visit Htree Hvisit)
      as [a Ha].
    eexists (_ :: blocks). constructor; [|exact Hblocks].
    split; [apply visit_block_no_offsets, Ha|].
    apply Forall_forall. intros o Ho.
    apply list_elem_of_lookup in Ho as [j Hj].
    apply lookup_zip_with_Some in Hj as (r & m & -> & Hr & Hm).
    unfold true_mags in Hm. rewrite list_lookup_fmap, Hr in Hm.
    injection Hm as <-. reflexivity.
Qed.

Lemma run_result_no_offsets visits (stars_array : list (Star F)) starTree
    lsst_filter n_patches radius_fov seed uncert_floor :
  star_tree stars_array = Ok starTree ->
  valid_seed seed = true ->
  Forall (fun visit => finite_point (visit_direction visit) = true) visits ->
  exists blocks,
    Forall2
      (fun visit block =>
         visit_block (merge_arrays stars_array) starTree
           (treeRadius radius_fov) [] lsst_filter n_patches uncert_floor
           visit = Ok block
         /\ Forall (fun o => o_observed_mag o = o_mag o) block)
      visits blocks
    /\ run_result visits stars_array [] lsst_filter n_patches radius_fov
         seed uncert_floor
       = res_bind (concatenate blocks) (fun result => Ok (Some result)).
Proof.
  intros Htree Hseed Hfin.
  destruct (no_offsets_blocks visits stars_array starTree lsst_filter
              n_patches radius_fov uncert_floor Htree Hfin)
    as [blocks Hblocks].
  exists blocks. split; [exact Hblocks|].
  unfold run_result, check_seed. rewrite Htree, Hseed. cbn [res_bind].
  assert (Hmap : res_mapM
                   (visit_block (merge_arrays stars_array) starTree
                      (treeRadius radius_fov) [] lsst_filter n_patches
                      uncert_floor) visits = Ok blocks).
  { apply res_mapM_Ok. eapply Forall2_impl; [exact Hblocks|].
    simpl. intros ? ? [? _]. assumption. }
  rewrite Hmap. reflexivity.
Qed.


Lemma star_tree_raises_ValueError (stars_array : list (Star F)) e :
  star_tree stars_array = Raise e -> exists msg, e = ValueError msg.
Proof. unfold star_tree. apply buildTree_raises_ValueError. lia. Qed.

Lemma star_tree_out_of_range (stars_array : list (Star F)) st :
  st ∈ stars_array -> out_of_range st ->
  exists msg, star_tree stars_array = Raise (ValueError msg).
Proof.
  intros Hin Hbad.
  destruct (star_tree stars_array) as [t|e] eqn:Hbuild.
  - exfalso. apply star_tree_Ok in Hbuild as (Hrange & _).
    exact (Hrange st Hin Hbad).
  - apply star_tree_raises_ValueError in Hbuild as [msg ->]. eauto.
Qed.

Lemma generate_catalog_no_visits (stars_array : list (Star F)) offsets
    lsst_filter n_patches radius_fov seed uncert_floor verbose
    (s : State F) :
  generate_catalog [] stars_array (Some offsets) lsst_filter n_patches
    radius_fov seed uncert_floor verbose s
  = match star_tree stars_array with
    | Ok _ =>
        if valid_seed seed
        then (Raise (ValueError "need at least one array to concatenate"),
              {| heap := <[next_ref s := merge_arrays stars_array]> (heap s);
                 next_ref := S (next_ref s);
                 events := events s;
                 np_seed := Some seed |})
        else (Raise (ValueError "Seed must be between 0 and 2**32 - 1"),
              with_catalogue s stars_array)
    | Raise e => (Raise e, with_catalogue s stars_array)
    end.
Proof.
  unfold generate_catalog, star_tree, with_catalogue.
  unfold bind, alloc, load, lift, np_random_seed. simpl.
  rewrite lookup_insert_eq. simpl.
  destruct (buildTree _ _ _); [|reflexivity].
  destruct (valid_seed seed); reflexivity.
Qed.

(** C5 (amended).  With a list of offsets, [generate_catalog] raises
    [ValueError] whenever a star's [ra] or [decl], in radians, exceeds
    [2 pi] in magnitude, the star catalogue is empty, or there is no
    visit; it does so with the merged catalogue as the only array
    created and nothing printed, so no visit has been processed. *)
Theorem invalid_input_raises_ValueError visits stars_array offsets
    lsst_filter n_patches radius_fov seed uncert_floor verbose
    (s : State F) :
  (exists st, st ∈ stars_array /\ out_of_range st)
  \/ stars_array = [] \/ visits = [] ->
  let out := generate_catalog visits stars_array (Some offsets) lsst_filter
               n_patches radius_fov seed uncert_floor verbose s in
  (exists msg, out.1 = Raise (ValueError msg))
  /\ heap out.2 = <[next_ref s := merge_arrays stars_array]> (heap s)
  /\ next_ref out.2 = S (next_ref s)
  /\ events out.2 = events s.
Proof.
  intros Hbad out.
  pose proof (generate_catalog_run visits stars_array offsets lsst_filter
                n_patches radius_fov seed uncert_floor verbose s)
    as (Hres & _ & _ & _ & Hstop & _).
  fold out in Hres, Hstop.
  assert (Hcases :
    (exists msg, star_tree stars_array = Raise (ValueError msg))
    \/ (visits = [] /\ exists t, star_tree stars_array = Ok t)).
  { destruct Hbad as [(st & Hin & Hst)|[->| ->]].
    - left. eapply star_tree_out_of_range; eassumption.
    - left. eexists. reflexivity.
    - destruct (star_tree stars_array) as [t|e] eqn:Ht; [right; eauto|].
      left. apply star_tree_raises_ValueError in Ht as [msg ->]. eauto. }
  destruct Hcases as [[msg Hraise]|[-> [t Ht]]].
  - rewrite (Hstop _ Hraise). simpl.
    split; [|auto]. exists msg. rewrite Hres. unfold run_result.
    rewrite Hraise. reflexivity.
  - subst out. rewrite generate_catalog_no_visits, Ht.
    destruct (valid_seed seed); simpl;
      (split; [eexists; reflexivity | auto]).
Qed.

(** C6 (amended).  Two offsets with the same key raise nothing: when
    every offset returns, the loop over the offsets returns a dict whose
    keys are distinct and in which every key maps to the delta returned
    last under it; the deltas returned earlier under that key are
    dropped. *)
Theorem shared_key_keeps_last_delta (offsets : list (Offset F)) stars_in
    visit :
  (forall offset dmags, offset ∈ offsets ->
     exists d, call offset stars_in visit dmags = Ok d) ->
  exists produced dmags,
    offset_deltas offsets stars_in visit [] = Ok produced
    /\ apply_offsets offsets stars_in visit [] = Ok dmags
    /\ NoDup (map fst dmags)
    /\ forall k,
         dict_get k dmags = match latest k produced with
                            | Some d => Ok d
                            | None => Raise (KeyError k)
                            end.
Proof.
  intros Hcalls.
  destruct (offset_deltas_defined offsets stars_in visit Hcalls [])
    as [produced Hprod].
  pose proof (offset_deltas_apply _ _ _ _ _ Hprod) as Happly.
  exists produced. eexists. split; [exact Hprod|]. split; [exact Happly|].
  split.
  - eapply apply_offsets_NoDup; [|exact Happly]. constructor.
  - intros k. rewrite dict_get_replay. reflexivity.
Qed.

Lemma visit_block_no_candidates catalogue starTree radius offsets
    lsst_filter n_patches uncert_floor (visit : Visit F) :
  kdtree_query starTree (visit_direction visit) radius = Ok [] ->
  (forall offset dmags, offset ∈ offsets ->
     call offset [] visit dmags = Ok []) ->
  visit_block catalogue starTree radius offsets lsst_filter n_patches
    uncert_floor visit = Ok [].
Proof.
  intros Hq Hcalls. rewrite visit_block_records.
  unfold candidates. rewrite Hq. simpl.
  rewrite observed_mags_entries.
  destruct (apply_offsets_empty offsets visit Hcalls [])
    as (dmags & -> & Hd); [constructor|]. simpl.
  unfold true_mags. simpl. rewrite add_all_empty; [reflexivity|].
  apply Forall_fmap. exact Hd.
Qed.


End Claims.

(* ------------------------------------------------------------------ *)
(** * Exact arithmetic: comparisons, [wrapRA], the chord *)

Section ExactFacts.
Import Exact.
Local Open Scope R_scope.

Lemma Rltb_true a b : a < b -> Rltb a b = true.
Proof. unfold Rltb. destruct (Rlt_dec a b); [reflexivity | contradiction]. Qed.

Lemma Rltb_false a b : b <= a -> Rltb a b = false.
Proof. unfold Rltb. destruct (Rlt_dec a b); [lra | reflexivity]. Qed.

Lemma Rleb_le a b : Rleb a b = true <-> a <= b.
Proof. unfold Rleb. destruct (Rle_dec a b); split; auto; discriminate. Qed.

Lemma Reqb_true a b : a = b -> Reqb a b = true.
Proof. unfold Reqb. destruct (Req_dec_T a b); [reflexivity | contradiction]. Qed.

Lemma Reqb_false a b : a <> b -> Reqb a b = false.
Proof. unfold Reqb. destruct (Req_dec_T a b); [contradiction | reflexivity]. Qed.

(** Without rounding, [ra % 360.0] is [ra] minus 360 times the floor of
    [ra / 360]. *)
Lemma wrapRA_floor (x : R) :
  wrapRA x = x - 360 * IZR (Zfloor (x / 360)).
Proof.
  unfold wrapRA, py_mod. simpl.
  rewrite (Reqb_false 360 0) by lra.
  rewrite (Rltb_false 360 0) by lra.
  unfold Rfmod, Rtrunc.
  pose proof (Zfloor_bound (x / 360)) as Hf.
  pose proof (Zceil_bound (x / 360)) as Hc.
  assert (Hx : x = 360 * (x / 360)) by field.
  set (q := x / 360) in *.
  unfold Rcopysign. destruct (Rlt_dec 360 0) as [Hneg|_]; [lra|].
  rewrite Rabs_R0.
  destruct (Rle_dec 0 q) as [Hq|Hq].
  - destruct (Req_dec_T (x - 360 * IZR (Zfloor q)) 0) as [Hm|Hm].
    + rewrite Reqb_true by exact Hm. simpl. lra.
    + rewrite Reqb_false by exact Hm. simpl.
      rewrite Rltb_false by lra. reflexivity.
  - destruct (Req_dec_T (x - 360 * IZR (Zceil q)) 0) as [Hm|Hm].
    + rewrite Reqb_true by exact Hm. simpl.
      assert (Hqz : q = IZR (Zceil q)) by lra.
      rewrite Hqz, ZfloorZ. lra.
    + rewrite Reqb_false by exact Hm. simpl.
      rewrite Rltb_true by lra. simpl.
      assert (Hfl : Zfloor q = (Zceil q - 1)%Z).
      { apply Zfloor_eq. rewrite minus_IZR. lra. }
      rewrite Hfl, minus_IZR. lra.
Qed.

(** C9 (amended).  Over the reals, that is with the rounding of [float64]
    left out, [wrapRA] has period 360 and its result lies in [[0, 360)]. *)
Theorem wrapRA_exact_periodic_in_range (x : R) (k : Z) :
  wrapRA x = wrapRA (x + 360 * IZR k) /\ 0 <= wrapRA x < 360.
Proof.
  rewrite !wrapRA_floor. split.
  - replace ((x + 360 * IZR k) / 360) with (x / 360 + IZR k) by field.
    rewrite Zfloor_addz, plus_IZR. lra.
  - pose proof (Zfloor_bound (x / 360)) as Hf.
    assert (Hx : x = 360 * (x / 360)) by field.
    lra.
Qed.

Lemma distance_self (p : R * R * R) : distance p p = 0.
Proof.
  destruct p as [[px py] pz]. unfold distance, pow2. simpl.
  replace ((px - px) * (px - px) + (py - py) * (py - py)
           + (pz - pz) * (pz - pz))
    with 0 by ring.
  apply sqrt_0.
Qed.

Lemma treeRadius_nonneg (radius_fov : R) : 0 <= treeRadius radius_fov.
Proof. unfold treeRadius. simpl. apply sqrt_pos. Qed.

Lemma treexyz_equator (ra : R) :
  treexyz ra 0 = (Rtrigo_def.cos ra, Rtrigo_def.sin ra, 0).
Proof.
  unfold treexyz. simpl. rewrite cos_0, sin_0, !Rmult_1_l. reflexivity.
Qed.

(** The radius of the tree is the chord of the field-of-view angle. *)
Lemma treeRadius_chord (radius_fov : R) :
  treeRadius radius_fov = 2 * Rabs (Rtrigo_def.sin (radians radius_fov / 2)).
Proof.
  unfold treeRadius, radians, pow2. simpl. rewrite cos_0, sin_0.
  set (t := radius_fov * (PI / 180)).
  pose proof (sin2_cos2 t) as Hsc. unfold Rsqr in Hsc.
  pose proof (cos_2a_sin (t / 2)) as Hc.
  replace (2 * (t / 2)) with t in Hc by field.
  set (h := Rtrigo_def.sin (t / 2)) in *.
  replace ((1 * Rtrigo_def.cos t - 1) * (1 * Rtrigo_def.cos t - 1) +
           (1 * Rtrigo_def.sin t - 0) * (1 * Rtrigo_def.sin t - 0) +
           (0 - 0) * (0 - 0))
    with (Rsqr (2 * h)).
  - rewrite sqrt_Rsqr_abs, Rabs_mult, (Rabs_pos_eq 2) by lra. reflexivity.
  - unfold Rsqr. rewrite Hc. nra.
Qed.

(** Every real point is finite: scipy's checks never fire. *)
Lemma finite_point_exact (p : R * R * R) : finite_point p = true.
Proof. destruct p as [[px py] pz]. reflexivity. Qed.

Lemma finite_points_exact (data : list (R * R * R)) :
  forallb finite_point data = true.
Proof.
  induction data as [|p data IH]; simpl; [reflexivity|].
  rewrite finite_point_exact, IH. reflexivity.
Qed.

Lemma kdtree_query_exact (t : KDTree R) (p : R * R * R) (r : R) :
  kdtree_query t p r = Ok (query_ball_point t p r).
Proof. unfold kdtree_query. rewrite finite_point_exact. reflexivity. Qed.

Lemma quadrature (base floor : R) :
  let e := R_sqrt.sqrt (base * base + floor * floor) in
  e * e = base * base + floor * floor.
Proof. simpl. apply sqrt_sqrt. nra. Qed.

End ExactFacts.

(* ------------------------------------------------------------------ *)
(** * Properties of [generate_catalog] in exact arithmetic *)

Section ExactClaims.
Import Exact.
Local Open Scope R_scope.
Context `{Collaborators R}.

(** C3 (amended).  Over the reals, that is with the rounding of [float64]
    left out, every record of a run has an uncertainty whose square is
    the square of the error [calc_mag_errors] returns for the record's
    observed magnitude and the visit's [fiveSigmaDepth], plus the square
    of [uncert_floor]. *)
Theorem uncertainty_in_quadrature visits stars_array offsets lsst_filter
    n_patches radius_fov seed uncert_floor verbose (s : State R) result :
  (generate_catalog visits stars_array offsets lsst_filter n_patches
     radius_fov seed uncert_floor verbose s).1 = Ok (Some result) ->
  exists blocks,
    result = concat blocks
    /\ Forall2
         (fun visit block =>
            Forall
              (fun o =>
                 let base_error :=
                   calc_mag_errors lsst_filter (o_observed_mag o)
                     (fiveSigmaDepth visit) in
                 o_mag_uncert o * o_mag_uncert o
                 = base_error * base_error + uncert_floor * uncert_floor)
              block)
         visits blocks.
Proof.
  intros Hrun.
  apply generate_catalog_blocks in Hrun
    as (offs & starTree & blocks & _ & _ & _ & -> & Hblocks).
  exists blocks. split; [reflexivity|].
  eapply Forall2_impl; [exact Hblocks|]. cbv beta.
  intros visit block Hblock. rewrite visit_block_records in Hblock.
  destruct (candidates _ _ _ _ _) as [a|e]; [|discriminate].
  cbn [res_bind] in Hblock.
  destruct (observed_mags _ _ _ _) as [obs|e]; [|discriminate].
  injection Hblock as <-.
  apply Forall_forall. intros o Ho.
  apply list_elem_of_lookup in Ho as [j Hj].
  apply lookup_zip_with_Some in Hj as (r & m & -> & _ & _).
  apply quadrature.
Qed.

(** C2.  The radius of the tree is the distance between [(1, 0, 0)] and
    the unit vector at the angle [radius_fov] on the equator, which is the
    chord [2 |sin (radians radius_fov / 2)|]; and in a run, the candidates
    of every visit, hence the stars of its records, have a direction
    within that distance of the visit's direction. *)
Theorem candidates_within_chord_radius visits stars_array offsets
    lsst_filter n_patches radius_fov seed uncert_floor verbose
    (s : State R) result :
  (generate_catalog visits stars_array offsets lsst_filter n_patches
     radius_fov seed uncert_floor verbose s).1 = Ok (Some result) ->
  treeRadius radius_fov
  = distance (treexyz (radians radius_fov) 0) (1, 0, 0)
  /\ treeRadius radius_fov
     = 2 * Rabs (Rtrigo_def.sin (radians radius_fov / 2))
  /\ exists starTree blocks,
       star_tree stars_array = Ok starTree
       /\ result = concat blocks
       /\ Forall2
            (fun visit block =>
               exists a,
                 candidates (merge_arrays stars_array) starTree
                   (treeRadius radius_fov) n_patches visit = Ok a
                 /\ length block = length a
                 /\ Forall
                      (fun r =>
                         distance (star_direction r) (visit_direction visit)
                         <= treeRadius radius_fov) a
                 /\ Forall
                      (fun o =>
                         distance
                           (treexyz (radians (o_ra o)) (radians (o_decl o)))
                           (visit_direction visit)
                         <= treeRadius radius_fov) block)
            visits blocks.
Proof.
  intros Hrun.
  split; [reflexivity|]. split; [apply treeRadius_chord|].
  apply generate_catalog_blocks in Hrun
    as (offs & starTree & blocks & _ & Htree & _ & -> & Hblocks).
  exists starTree, blocks. split; [exact Htree|]. split; [reflexivity|].
  eapply Forall2_impl; [exact Hblocks|]. cbv beta.
  intros visit block Hblock. rewrite visit_block_records in Hblock.
  destruct (candidates _ _ _ _ _) as [a|e] eqn:Ha; [|discriminate].
  cbn [res_bind] in Hblock.
  destruct (observed_mags _ _ _ _) as [obs|e] eqn:Hobs; [|discriminate].
  injection Hblock as <-.
  apply observed_mags_length in Hobs.
  pose proof (candidates_within _ _ _ _ _ _ Htree Ha) as Hwithin.
  assert (Hrows : Forall
                    (fun r => distance (star_direction r)
                                (visit_direction visit)
                              <= treeRadius radius_fov) a).
  { eapply Forall_impl; [exact Hwithin|]. cbv beta.
    intros r (_ & _ & _ & Hle). apply Rleb_le, Hle. }
  exists a. split; [reflexivity|].
  split; [rewrite length_zip_with; lia|]. split; [exact Hrows|].
  apply Forall_forall. intros o Ho.
  apply list_elem_of_lookup in Ho as [j Hj].
  apply lookup_zip_with_Some in Hj as (r & m & -> & Hr & _).
  rewrite Forall_forall in Hrows. apply (Hrows r).
  apply list_elem_of_lookup. eauto.
Qed.

End ExactClaims.

(* ------------------------------------------------------------------ *)
(** * The scenario, computed *)

Section ScenarioFacts.
Import Exact Scenario.
Local Open Scope R_scope.

Lemma zero_angle_in_range :
  gtb (abs (radians (0 : R))) (mul pi (of_Z 2)) = false.
Proof.
  unfold gtb, radians. simpl. apply Rltb_false.
  rewrite Rmult_0_l, Rabs_R0. pose proof PI_RGT_0. lra.
Qed.

Lemma two_turns_out_of_range : out_of_range star_720.
Proof.
  left. unfold gtb, radians. simpl. apply Rltb_true.
  pose proof PI_RGT_0. rewrite Rabs_pos_eq by lra. lra.
Qed.

Lemma star_tree_star0 : star_tree [star0] = Ok tree0.
Proof.
  apply star_tree_Ok. split; [|split; [|split]].
  - intros st Hst. apply list_elem_of_singleton in Hst as ->.
    intros [Hbad|Hbad]; cbn [star0 ra decl] in Hbad;
      rewrite zero_angle_in_range in Hbad; discriminate.
  - discriminate.
  - apply finite_points_exact.
  - reflexivity.
Qed.

Lemma query_single (p q : R * R * R) (r : R) leafsize :
  query_ball_point {| kd_data := [p]; kd_leafsize := leafsize |} q r
  = if Rle_dec (distance p q) r then [0%nat] else [].
Proof.
  unfold query_ball_point. simpl. unfold filter. simpl. unfold Rleb.
  destruct (Rle_dec (distance p q) r); reflexivity.
Qed.

Lemma query_visit0 :
  query_ball_point tree0 (visit_direction visit0) (treeRadius (9 / 5))
  = [0%nat].
Proof.
  unfold tree0. rewrite query_single.
  destruct (Rle_dec _ _) as [_|Hn]; [reflexivity|].
  exfalso. apply Hn.
  change (visit_direction visit0) with (star_direction (zero_row star0)).
  rewrite distance_self. apply treeRadius_nonneg.
Qed.

Lemma candidates_visit0 :
  candidates (merge_arrays [star0]) tree0 (treeRadius (9 / 5)) 16 visit0
  = Ok [row0].
Proof.
  unfold candidates. rewrite kdtree_query_exact, query_visit0. reflexivity.
Qed.

Lemma half_turn : radians 180 = PI.
Proof. unfold radians. simpl. field. Qed.

Lemma radians_0 : radians (0 : R) = 0.
Proof. unfold radians. simpl. ring. Qed.

Lemma treeRadius_lt_2 : treeRadius (9 / 5) < 2.
Proof.
  rewrite treeRadius_chord.
  assert (Hhalf : radians (9 / 5) / 2 = PI / 200)
    by (unfold radians; simpl; field).
  rewrite Hhalf.
  pose proof PI_RGT_0 as Hpi. pose proof PI_4 as Hpi4.
  assert (Hpos : 0 < Rtrigo_def.sin (PI / 200)) by (apply sin_gt_0; lra).
  assert (Hlt : Rtrigo_def.sin (PI / 200) < PI / 200)
    by (apply sin_lt_x; lra).
  rewrite Rabs_pos_eq by lra. lra.
Qed.

(** The opposite pointing is at distance 2 from the star: no candidate. *)
Lemma query_visit_far :
  query_ball_point tree0 (visit_direction visit_far) (treeRadius (9 / 5))
  = [].
Proof.
  unfold tree0. rewrite query_single.
  destruct (Rle_dec _ _) as [Hle|_]; [|reflexivity].
  exfalso. revert Hle.
  unfold star_direction, visit_direction.
  cbn [visit_far visit_at zero_row star0 v_ra v_dec ra decl star].
  rewrite half_turn, radians_0, !treexyz_equator, cos_0, sin_0, cos_PI, sin_PI.
  unfold distance, pow2. simpl.
  replace ((1 - -1) * (1 - -1) + (0 - 0) * (0 - 0) + (0 - 0) * (0 - 0))
    with (Rsqr 2) by (unfold Rsqr; ring).
  rewrite sqrt_Rsqr by lra. pose proof treeRadius_lt_2. lra.
Qed.

Lemma kdtree_query_visit_far :
  kdtree_query tree0 (visit_direction visit_far) (treeRadius (9 / 5))
  = Ok [].
Proof. rewrite kdtree_query_exact, query_visit_far. reflexivity. Qed.

Lemma visit_block_visit0 (offsets : list (Offset R)) :
  visit_block (merge_arrays [star0]) tree0 (treeRadius (9 / 5)) offsets "r"
    16 (5 / 1000) visit0
  = res_bind (observed_mags offsets "r" visit0 [row0])
      (fun obs => Ok (zip_with (record_of "r" (5 / 1000) visit0) [row0] obs)).
Proof. rewrite visit_block_records, candidates_visit0. reflexivity. Qed.

(** The run over the one star and the one visit on it. *)
Lemma run_visit0 (offsets : list (Offset R)) :
  run [visit0] [star0] (Some offsets)
  = res_bind (observed_mags offsets "r" visit0 [row0])
      (fun obs =>
         Ok (Some (zip_with (record_of "r" (5 / 1000) visit0) [row0] obs))).
Proof.
  unfold run.
  pose proof (generate_catalog_run [visit0] [star0] offsets "r" 16 (9 / 5) 42
                (5 / 1000) true init_state) as (Hres & _).
  cbv zeta in Hres. rewrite Hres. unfold run_result.
  rewrite star_tree_star0. cbn [res_bind res_mapM].
  rewrite visit_block_visit0.
  destruct (observed_mags offsets "r" visit0 [row0]) as [obs|e];
    cbn [res_bind]; [|reflexivity].
  unfold concatenate. cbn [concat]. rewrite app_nil_r. reflexivity.
Qed.

Lemma run_one_shift (d : R) :
  run [visit0] [star0] (Some [shift "zp" d]) = Ok (Some [record0 (15 + d)]).
Proof. rewrite run_visit0. reflexivity. Qed.

Lemma run_two_shifts (d1 d2 : R) :
  run [visit0] [star0] (Some [shift "zp" d1; shift "zp" d2])
  = Ok (Some [record0 (15 + d2)]).
Proof. rewrite run_visit0. reflexivity. Qed.

Lemma run_no_offsets :
  run [visit0] [star0] (Some []) = Ok (Some [record0 15]).
Proof. rewrite run_visit0. reflexivity. Qed.

End ScenarioFacts.

(* ------------------------------------------------------------------ *)
(** * Where the code departs from the specification *)

Section Counterexamples.
Import Exact Scenario.
Local Open Scope R_scope.

(** C1, as stated, fails: two offsets that share the key ["zp"] and shift by
    1 and by 2 give an observed magnitude of [15 + 2], not of
    [15 + 1 + 2]. *)
Lemma shared_key_drops_a_delta :
  run [visit0] [star0] (Some [shift "zp" 1; shift "zp" 2])
  = Ok (Some [record0 (15 + 2)])
  /\ ~ records_sum produced_deltas [visit0] [star0]
         [shift "zp" 1; shift "zp" 2] "r" 16 (9 / 5) [record0 (15 + 2)].
Proof.
  split; [apply run_two_shifts|].
  intros (starTree & blocks & Htree & Hconcat & Hall).
  rewrite star_tree_star0 in Htree. injection Htree as <-.
  inversion Hall as [|? block ? blocks' Hvisit Hrest]; subst.
  inversion Hrest; subst. simpl in Hconcat. rewrite app_nil_r in Hconcat.
  subst block.
  destruct Hvisit as (a & ds & Ha & Hds & _ & Hsum).
  rewrite candidates_visit0 in Ha. injection Ha as <-.
  injection Hds as <-.
  destruct (Hsum 0%nat row0 (record0 (15 + 2)) eq_refl eq_refl)
    as (_ & djs & Hdjs & Hobs).
  inversion Hdjs as [|? dj1 ? djs1 Hd1 Hrest1]; subst.
  inversion Hrest1 as [|? dj2 ? djs2 Hd2 Hrest2]; subst.
  inversion Hrest2; subst.
  injection Hd1 as <-. injection Hd2 as <-.
  simpl in Hobs. lra.
Qed.

(** C4, as stated, fails: with zero offsets given as the empty list the
    run is not refused; it returns the record of the star, at its true
    magnitude, and emits nothing but progress lines. *)
Lemma empty_offsets_list_is_not_refused :
  run [visit0] [star0] (Some []) = Ok (Some [record0 15])
  /\ Forall is_progress
       (events (generate_catalog [visit0] [star0] (Some []) "r" 16 (9 / 5)
                  42 (5 / 1000) true init_state).2).
Proof.
  split; [apply run_no_offsets|].
  pose proof (generate_catalog_run [visit0] [star0] [] "r" 16 (9 / 5) 42
                (5 / 1000) true init_state)
    as (_ & _ & _ & (evs & Hev & Hprog) & _).
  cbv zeta in Hev. rewrite Hev. exact Hprog.
Qed.

(** C5, as stated, fails: with [offsets=None] an empty catalogue and an
    empty list of visits raise nothing; and a visit whose [ra] is 720
    degrees, [4 pi] radians, is accepted. *)
Lemma invalid_input_is_not_always_raised :
  (generate_catalog [] [] None "r" 16 (9 / 5) 42 (5 / 1000) true
     init_state).1 = Ok None
  /\ exists result, run [visit_720] [star0] (Some []) = Ok (Some result).
Proof.
  split; [reflexivity|].
  unfold run.
  pose proof (generate_catalog_run [visit_720] [star0] [] "r" 16 (9 / 5) 42
                (5 / 1000) true init_state) as (Hres & _).
  cbv zeta in Hres. rewrite Hres.
  destruct (run_result_no_offsets [visit_720] [star0] tree0 "r" 16 (9 / 5)
              42 (5 / 1000) star_tree_star0 eq_refl)
    as (blocks & Hblocks & ->).
  { repeat constructor. }
  inversion Hblocks; subst. eexists. reflexivity.
Qed.

(** C6, as stated, fails: two offsets with the key ["zp"] raise nothing;
    the dict ends with the second delta alone and the run returns. *)
Lemma shared_key_raises_nothing :
  apply_offsets [shift "zp" 1; shift "zp" 2] [row0] visit0 []
  = Ok [("zp", [2])]
  /\ run [visit0] [star0] (Some [shift "zp" 1; shift "zp" 2])
     = Ok (Some [record0 (15 + 2)]).
Proof. split; [reflexivity | apply run_two_shifts]. Qed.


End Counterexamples.

Section Float64.
Import F64 Scenario Scenario64.

(** The helpers on some doubles, as Python computes them. *)
Lemma float64_examples :
  wrapRA 370.5%float = 10.5%float
  /\ wrapRA (-10)%float = 350%float
  /\ wrapRA 720%float = 0%float
  /\ py_mod (-7.5)%float 2%float = 0.5%float
  /\ capDec 100%float = 90%float
  /\ capDec (-100)%float = (-90)%float
  /\ capDec 45.25%float = 45.25%float.
Proof. vm_compute. repeat split. Qed.

(** C9, as stated, fails on [float64]: for the double nearest to [-1e-20],
    [wrapRA] returns 360.0, which is not below 360, while one period
    further it returns 0.0. *)
Lemma wrapRA_float64_reaches_360 :
  wrapRA tiny_negative = 360%float
  /\ ltb (wrapRA tiny_negative) (of_Z 360) = false
  /\ wrapRA (add tiny_negative (mul (of_Z 360) (of_Z 1))) = 0%float.
Proof. vm_compute. repeat split. Qed.

(** C3, as stated, fails on [float64]: with a base error of 0.02 and a
    floor of 0.005 the uncertainty of the record is the rounded square
    root of the rounded sum of squares, and its square is above that sum
    (0.00042500000000000008 against 0.00042500000000000003). *)
Lemma uncertainty_float64_is_rounded :
  let final := o_mag_uncert record64 in
  let base_error :=
    calc_mag_errors "r" (o_observed_mag record64) (fiveSigmaDepth visit64) in
  let sum := add (mul base_error base_error) (mul floor64 floor64) in
  final = sqrt sum
  /\ eqb (mul final final) sum = false
  /\ ltb sum (mul final final) = true.
Proof. vm_compute. repeat split. Qed.

End Float64.

(* ------------------------------------------------------------------ *)
(** * The theorems at work on the scenario *)

Section Witnesses.
Import Exact Scenario.
Local Open Scope R_scope.

(** C1 on the scenario of the specification: one offset ["zp"] of -0.1. *)
Lemma observed_mag_sums_recorded_deltas_witness :
  run [visit0] [star0] (Some [shift "zp" (-1 / 10)])
  = Ok (Some [record0 (15 + -1 / 10)])
  /\ records_sum recorded_deltas [visit0] [star0] [shift "zp" (-1 / 10)]
       "r" 16 (9 / 5) [record0 (15 + -1 / 10)]
  /\ NoDup (map newkey [shift "zp" (-1 / 10)])
  /\ records_sum produced_deltas [visit0] [star0] [shift "zp" (-1 / 10)]
       "r" 16 (9 / 5) [record0 (15 + -1 / 10)].
Proof.
  assert (Hnd : NoDup (map newkey [shift "zp" (-1 / 10)]))
    by (apply NoDup_singleton).
  destruct (observed_mag_sums_recorded_deltas [visit0] [star0]
              [shift "zp" (-1 / 10)] "r" 16 (9 / 5) 42 (5 / 1000) true
              init_state [record0 (15 + -1 / 10)] (run_one_shift (-1 / 10)))
    as [Hrec Hprod].
  split; [apply run_one_shift|]. split; [exact Hrec|].
  split; [exact Hnd | exact (Hprod Hnd)].
Defined.

(** C2 on the scenario. *)
Lemma candidates_within_chord_radius_witness :
  run [visit0] [star0] (Some [shift "zp" (-1 / 10)])
  = Ok (Some [record0 (15 + -1 / 10)])
  /\ treeRadius (9 / 5) = 2 * Rabs (Rtrigo_def.sin (radians (9 / 5) / 2))
  /\ exists starTree blocks,
       star_tree [star0] = Ok starTree
       /\ [record0 (15 + -1 / 10)] = concat blocks
       /\ Forall2
            (fun visit block =>
               exists a,
                 candidates (merge_arrays [star0]) starTree
                   (treeRadius (9 / 5)) 16 visit = Ok a
                 /\ length block = length a
                 /\ Forall
                      (fun r =>
                         distance (star_direction r) (visit_direction visit)
                         <= treeRadius (9 / 5)) a
                 /\ Forall
                      (fun o =>
                         distance
                           (treexyz (radians (o_ra o)) (radians (o_decl o)))
                           (visit_direction visit)
                         <= treeRadius (9 / 5)) block)
            [visit0] blocks.
Proof.
  split; [apply run_one_shift|].
  apply (candidates_within_chord_radius [visit0] [star0]
           (Some [shift "zp" (-1 / 10)]) "r" 16 (9 / 5) 42 (5 / 1000) true
           init_state [record0 (15 + -1 / 10)] (run_one_shift (-1 / 10))).
Defined.

(** C3 on the scenario. *)
Lemma uncertainty_in_quadrature_witness :
  run [visit0] [star0] (Some [shift "zp" (-1 / 10)])
  = Ok (Some [record0 (15 + -1 / 10)])
  /\ exists blocks,
       [record0 (15 + -1 / 10)] = concat blocks
       /\ Forall2
            (fun visit block =>
               Forall
                 (fun o =>
                    let base_error :=
                      calc_mag_errors "r" (o_observed_mag o)
                        (fiveSigmaDepth visit) in
                    o_mag_uncert o * o_mag_uncert o
                    = base_error * base_error + 5 / 1000 * (5 / 1000))
                 block)
            [visit0] blocks.
Proof.
  split; [apply run_one_shift|].
  apply (uncertainty_in_quadrature [visit0] [star0]
           (Some [shift "zp" (-1 / 10)]) "r" 16 (9 / 5) 42 (5 / 1000) true
           init_state [record0 (15 + -1 / 10)] (run_one_shift (-1 / 10))).
Defined.

(** C5 on a catalogue whose star has [ra = 720]. *)
Lemma invalid_input_raises_ValueError_witness :
  (exists st, st ∈ [star_720] /\ out_of_range st)
  /\ let out := generate_catalog [visit0] [star_720] (Some []) "r" 16 (9 / 5)
                  42 (5 / 1000) true init_state in
     (exists msg, out.1 = Raise (ValueError msg))
     /\ heap out.2 = <[0%nat := merge_arrays [star_720]]> ∅
     /\ next_ref out.2 = 1%nat
     /\ events out.2 = [].
Proof.
  assert (Hbad : exists st, st ∈ [star_720] /\ out_of_range st).
  { exists star_720. split; [left | apply two_turns_out_of_range]. }
  split; [exact Hbad|].
  apply (invalid_input_raises_ValueError [visit0] [star_720] [] "r" 16
           (9 / 5) 42 (5 / 1000) true init_state (or_introl Hbad)).
Defined.

(** C6 on two offsets that share the key ["zp"]. *)
Lemma shared_key_keeps_last_delta_witness :
  (forall offset dmags,
     offset ∈ [shift "zp" 1; shift "zp" 2] ->
     exists d, call offset [row0] visit0 dmags = Ok d)
  /\ exists produced dmags,
       offset_deltas [shift "zp" 1; shift "zp" 2] [row0] visit0 []
       = Ok produced
       /\ apply_offsets [shift "zp" 1; shift "zp" 2] [row0] visit0 []
          = Ok dmags
       /\ NoDup (map fst dmags)
       /\ forall k,
            dict_get k dmags = match latest k produced with
                               | Some d => Ok d
                               | None => Raise (KeyError k)
                               end.
Proof.
  assert (Hcalls : forall offset dmags,
            offset ∈ [shift "zp" 1; shift "zp" 2] ->
            exists d, call offset [row0] visit0 dmags = Ok d).
  { intros offset dmags Hin.
    apply elem_of_cons in Hin as [->|Hin]; [eexists; reflexivity|].
    apply elem_of_cons in Hin as [->|Hin]; [eexists; reflexivity|].
    inversion Hin. }
  split; [exact Hcalls|].
  apply (shared_key_keeps_last_delta [shift "zp" 1; shift "zp" 2] [row0]
           visit0 Hcalls).
Defined.

(** C7 on the scenario: the turn of [visit0] writes at reference 1 and
    leaves reference 0, the catalogue, alone; after the run the catalogue
    is what it was. *)
Lemma catalogue_is_never_written_witness :
  let s1 := with_catalogue init_state [star0] in
  let turn := visit_body 0 tree0 (treeRadius (9 / 5))
                [shift "zp" (-1 / 10)] "r" 16 (5 / 1000) true 1 [] 0 visit0
                s1 in
  0%nat <> next_ref s1
  /\ heap turn.2 !! 0%nat = heap s1 !! 0%nat
  /\ heap (generate_catalog [visit0] [star0] (Some [shift "zp" (-1 / 10)])
             "r" 16 (9 / 5) 42 (5 / 1000) true init_state).2 !! 0%nat
     = Some (merge_arrays [star0]).
Proof.
  intros s1 turn.
  assert (Hne : 0%nat <> next_ref s1) by discriminate.
  destruct (catalogue_is_never_written [visit0] [star0]
              [shift "zp" (-1 / 10)] "r" 16 (9 / 5) 42 (5 / 1000) true
              init_state) as [Hturn [Hcat _]].
  split; [exact Hne|]. split; [|exact Hcat].
  exact (proj1 (Hturn 0%nat tree0 (treeRadius (9 / 5)) 1%nat [] 0%nat visit0
                  s1) 0%nat Hne).
Defined.



End Witnesses.

(* ------------------------------------------------------------------ *)
(** * Further properties: the coordinate helpers *)

Section HelperProperties.
Import Exact.
Local Open Scope R_scope.

Lemma capDec_cases (dec : R) :
  capDec dec
  = if Rlt_dec 90 dec then 90 else if Rlt_dec dec (-90) then -90 else dec.
Proof.
  unfold capDec, gtb. simpl. unfold Rltb.
  destruct (Rlt_dec 90 dec) as [Hhi|Hhi].
  - destruct (Rlt_dec 90 (-90)); [lra | reflexivity].
  - destruct (Rlt_dec dec (-90)); reflexivity.
Qed.

(** X1.  Over the reals [capDec] saturates: it is [max (-90) (min dec 90)],
    so its result lies in [[-90, 90]], and applying it twice changes
    nothing. *)
Theorem capDec_exact_clamp (dec : R) :
  capDec dec = Rmax (-90) (Rmin dec 90)
  /\ -90 <= capDec dec <= 90
  /\ capDec (capDec dec) = capDec dec.
Proof.
  assert (Hform : forall d, capDec d = Rmax (-90) (Rmin d 90)).
  { intros d. rewrite capDec_cases. unfold Rmax, Rmin.
    destruct (Rlt_dec 90 d); destruct (Rle_dec d 90); try lra;
      destruct (Rle_dec (-90) _); try lra;
      destruct (Rlt_dec d (-90)); lra. }
  assert (Hrange : forall d, -90 <= Rmax (-90) (Rmin d 90) <= 90).
  { intros d. unfold Rmax, Rmin.
    destruct (Rle_dec d 90); destruct (Rle_dec (-90) _); lra. }
  split; [apply Hform|]. split; [rewrite Hform; apply Hrange|].
  rewrite !Hform. specialize (Hrange dec).
  set (c := Rmax (-90) (Rmin dec 90)) in *.
  unfold Rmax, Rmin.
  destruct (Rle_dec c 90); destruct (Rle_dec (-90) _); lra.
Qed.

(** X3.  Over the reals [wrapRA x] is [x - 360 * floor (x / 360)]; it is
    idempotent, and its fixed points are exactly the angles of
    [[0, 360)]. *)
Theorem wrapRA_exact_fixed_points (x : R) :
  wrapRA x = x - 360 * IZR (Zfloor (x / 360))
  /\ wrapRA (wrapRA x) = wrapRA x
  /\ (wrapRA x = x <-> 0 <= x < 360).
Proof.
  assert (Hid : forall y, 0 <= y < 360 -> wrapRA y = y).
  { intros y Hy. rewrite wrapRA_floor.
    assert (Hfl : Zfloor (y / 360) = 0%Z).
    { apply Zfloor_eq. simpl.
      assert (y = 360 * (y / 360)) by field. lra. }
    rewrite Hfl. lra. }
  assert (Hrange : 0 <= wrapRA x < 360).
  { rewrite wrapRA_floor. pose proof (Zfloor_bound (x / 360)).
    assert (x = 360 * (x / 360)) by field. lra. }
  split; [apply wrapRA_floor|]. split; [apply Hid, Hrange|].
  split; [intros Heq; rewrite <- Heq; exact Hrange | apply Hid].
Qed.

Lemma cos_turn (x : R) : Rtrigo_def.cos (x + 2 * PI) = Rtrigo_def.cos x.
Proof. rewrite cos_plus, cos_2PI, sin_2PI. ring. Qed.

Lemma sin_turn (x : R) : Rtrigo_def.sin (x + 2 * PI) = Rtrigo_def.sin x.
Proof. rewrite sin_plus, cos_2PI, sin_2PI. ring. Qed.

(** X4.  Over the reals [treexyz] returns a unit vector; it has period
    [2 pi] in both angles, and at the poles it does not depend on [ra]. *)
Theorem treexyz_exact_unit_vector (ra dec : R) :
  (let '(x, y, z) := treexyz ra dec in x * x + y * y + z * z = 1)
  /\ treexyz (ra + 2 * PI) dec = treexyz ra dec
  /\ treexyz ra (dec + 2 * PI) = treexyz ra dec
  /\ treexyz ra (PI / 2) = (0, 0, 1)
  /\ treexyz ra (- (PI / 2)) = (0, 0, -1).
Proof.
  unfold treexyz. simpl.
  pose proof (sin2_cos2 ra) as Hra. pose proof (sin2_cos2 dec) as Hdec.
  unfold Rsqr in *.
  split; [nra|].
  rewrite !cos_turn, !sin_turn, cos_neg, sin_neg, cos_PI2, sin_PI2.
  repeat split; try reflexivity; rewrite !Rmult_0_l; reflexivity.
Qed.

(** The distance between two directions, from the cosine of their
    separation. *)
Lemma direction_distance (ra1 dec1 ra2 dec2 : R) :
  distance (treexyz ra1 dec1) (treexyz ra2 dec2)
  = R_sqrt.sqrt (2 - 2 * cos_separation ra1 dec1 ra2 dec2)
  /\ 0 <= 2 - 2 * cos_separation ra1 dec1 ra2 dec2.
Proof.
  unfold distance, treexyz, cos_separation, pow2. simpl.
  rewrite cos_minus.
  pose proof (sin2_cos2 ra1) as H1. pose proof (sin2_cos2 dec1) as H2.
  pose proof (sin2_cos2 ra2) as H3. pose proof (sin2_cos2 dec2) as H4.
  unfold Rsqr in *.
  set (c1 := Rtrigo_def.cos ra1) in *. set (s1 := Rtrigo_def.sin ra1) in *.
  set (C1 := Rtrigo_def.cos dec1) in *. set (S1 := Rtrigo_def.sin dec1) in *.
  set (c2 := Rtrigo_def.cos ra2) in *. set (s2 := Rtrigo_def.sin ra2) in *.
  set (C2 := Rtrigo_def.cos dec2) in *. set (S2 := Rtrigo_def.sin dec2) in *.
  assert (Heq : (C1 * c1 - C2 * c2) * (C1 * c1 - C2 * c2)
                + (C1 * s1 - C2 * s2) * (C1 * s1 - C2 * s2)
                + (S1 - S2) * (S1 - S2)
                = 2 - 2 * (S1 * S2 + C1 * C2 * (c1 * c2 + s1 * s2))).
  { replace ((C1 * c1 - C2 * c2) * (C1 * c1 - C2 * c2)
             + (C1 * s1 - C2 * s2) * (C1 * s1 - C2 * s2)
             + (S1 - S2) * (S1 - S2))
      with (C1 * C1 * (s1 * s1 + c1 * c1) + C2 * C2 * (s2 * s2 + c2 * c2)
            + (S1 * S1 + S2 * S2)
            - 2 * (S1 * S2 + C1 * C2 * (c1 * c2 + s1 * s2))) by ring.
    rewrite H1, H3. lra. }
  rewrite Heq. split; [reflexivity|].
  rewrite <- Heq.
  pose proof (Rle_0_sqr (C1 * c1 - C2 * c2)) as Ha.
  pose proof (Rle_0_sqr (C1 * s1 - C2 * s2)) as Hb.
  pose proof (Rle_0_sqr (S1 - S2)) as Hc.
  unfold Rsqr in Ha, Hb, Hc. lra.
Qed.

Lemma treeRadius_cos (radius_fov : R) :
  treeRadius radius_fov
  = R_sqrt.sqrt (2 - 2 * Rtrigo_def.cos (radians radius_fov))
  /\ 0 <= 2 - 2 * Rtrigo_def.cos (radians radius_fov).
Proof.
  pose proof (COS_bound (radians radius_fov)) as Hb.
  split; [|lra].
  unfold treeRadius, radians, pow2. simpl. rewrite cos_0, sin_0.
  set (t := radius_fov * (PI / 180)) in *.
  pose proof (sin2_cos2 t) as Hsc. unfold Rsqr in Hsc.
  f_equal. nra.
Qed.

(** A point is within the radius of the tree exactly when the cosine of
    its separation from the pointing is at least the cosine of the field
    of view. *)
Lemma within_radius_iff (ra_s dec_s ra_v dec_v radius_fov : R) :
  Rleb (distance (treexyz ra_s dec_s) (treexyz ra_v dec_v))
       (treeRadius radius_fov) = true
  <-> Rtrigo_def.cos (radians radius_fov)
      <= cos_separation ra_s dec_s ra_v dec_v.
Proof.
  rewrite Rleb_le.
  destruct (direction_distance ra_s dec_s ra_v dec_v) as [-> Hd].
  destruct (treeRadius_cos radius_fov) as [-> Hr].
  split.
  - intros Hle. apply sqrt_le_0 in Hle; lra.
  - intros Hle. apply sqrt_le_1; lra.
Qed.

(** X5.  The radius of the tree as a function of [radius_fov] (degrees,
    over the reals): it is even and symmetric about 180, so it grows up to
    180 degrees only; it never exceeds 2, the diameter of the sphere; it
    is 0 at 0 and at 360 and 2 at 180. *)
Theorem treeRadius_exact_shape (radius_fov : R) :
  treeRadius (360 - radius_fov) = treeRadius radius_fov
  /\ treeRadius (- radius_fov) = treeRadius radius_fov
  /\ 0 <= treeRadius radius_fov <= 2
  /\ treeRadius 0 = 0 /\ treeRadius 180 = 2 /\ treeRadius 360 = 0.
Proof.
  assert (Hsym : forall f, treeRadius (360 - f) = treeRadius f).
  { intros f. rewrite !treeRadius_chord.
    replace (radians (360 - f) / 2) with (PI - radians f / 2)
      by (unfold radians; simpl; field).
    rewrite sin_PI_x. reflexivity. }
  assert (Hzero : treeRadius 0 = 0).
  { rewrite treeRadius_chord.
    replace (radians 0 / 2) with 0 by (unfold radians; simpl; field).
    rewrite sin_0, Rabs_R0. ring. }
  split; [apply Hsym|]. split.
  { rewrite !treeRadius_chord.
    replace (radians (- radius_fov) / 2) with (- (radians radius_fov / 2))
      by (unfold radians; simpl; field).
    rewrite sin_neg, Rabs_Ropp. reflexivity. }
  split.
  { rewrite treeRadius_chord.
    pose proof (SIN_bound (radians radius_fov / 2)) as Hb.
    pose proof (Rabs_pos (Rtrigo_def.sin (radians radius_fov / 2))).
    assert (Rabs (Rtrigo_def.sin (radians radius_fov / 2)) <= 1)
      by (apply Rabs_le; lra).
    lra. }
  split; [exact Hzero|]. split.
  - rewrite treeRadius_chord.
    replace (radians 180 / 2) with (PI / 2) by (unfold radians; simpl; field).
    rewrite sin_PI2, Rabs_R1. ring.
  - replace 360 with (360 - 0) by ring. rewrite Hsym. exact Hzero.
Qed.

(** X7.  Over the reals [buildTree], on one-dimensional arrays, returns a
    tree exactly when every angle is at most [2 pi] in magnitude (the
    bound itself is accepted), the leaf size is at least 1 (and fits a C
    integer) and the lengths give at least one point.  With as many [ra]
    as [dec] the tree holds the [treexyz] of the pairs, in order; a single
    [ra] is paired with every [dec]; a single [dec] with several [ra]
    gives a tree of one point only, because [zip] stops with [z], which
    has one element; any other lengths raise. *)
Theorem buildTree_exact_accepts (ras decs : list R) (leafsize : Z)
    (t : KDTree R) :
  buildTree ras decs leafsize = Ok t
  <-> (forall a, a ∈ ras ++ decs -> Rabs a <= 2 * PI)
      /\ (1 <= leafsize < 2 ^ 63)%Z
      /\ exists data,
           t = {| kd_data := data; kd_leafsize := leafsize |}
           /\ data <> []
           /\ ((length ras = length decs
                /\ data = zip_with treexyz ras decs)
               \/ (exists r0,
                     ras = [r0] /\ length decs <> 1%nat
                     /\ data = map (treexyz r0) decs)
               \/ (exists r0 ras' d0,
                     ras = r0 :: ras' /\ ras' <> [] /\ decs = [d0]
                     /\ data = [treexyz r0 d0])).
Proof.
  rewrite buildTree_Ok.
  assert (Hrange : forall a : R,
            gtb (abs a) (mul pi (of_Z 2)) = false <-> Rabs a <= 2 * PI).
  { intros a. unfold gtb. simpl. unfold Rltb.
    destruct (Rlt_dec (PI * 2) (Rabs a)); split; intros; try lra;
      try discriminate; reflexivity. }
  split.
  - intros (Hr & data & Hdata & Hne & _ & Hleaf & ->).
    split; [intros a Ha; apply Hrange, Hr, Ha|]. split; [exact Hleaf|].
    exists data. split; [reflexivity|]. split; [exact Hne|].
    apply tree_points_cases in Hdata
      as [Haligned|[Hsingle|(d0 & -> & Hlen & Hd)]]; [auto | auto |].
    right. right. destruct ras as [|r0 ras']; [congruence|].
    exists r0, ras', d0. repeat split; auto.
    intros ->. apply Hlen. reflexivity.
  - intros (Hr & Hleaf & data & -> & Hne & Hcases).
    split; [intros a Ha; apply Hrange, Hr, Ha|].
    exists data. split; [|split; [exact Hne|]].
    + apply tree_points_cases.
      destruct Hcases as [Haligned|[Hsingle|(r0 & ras' & d0 & -> & Hr' & -> & ->)]];
        [auto | auto |].
      right. right. exists d0. split; [reflexivity|].
      split; [|reflexivity]. destruct ras'; [congruence | discriminate].
    + split; [apply finite_points_exact|]. split; [exact Hleaf | reflexivity].
Qed.

End HelperProperties.

Section HelperPropertiesFloat64.
Import F64.

Lemma float64_90 : F64.from_Z 90 = 90%float.
Proof. reflexivity. Qed.

Lemma float64_minus_90 : F64.from_Z (-90) = (-90)%float.
Proof. reflexivity. Qed.

(** X2.  On every [float64], NaN and the infinities included, [capDec]
    returns 90 when [dec > 90], -90 when [dec < -90] and [dec] itself
    otherwise (so NaN stays NaN); its result is never above 90 nor below
    -90. *)
Theorem capDec_float64_clamp (dec : float) :
  capDec dec
  = (if PrimFloat.ltb 90 dec then 90
     else if PrimFloat.ltb dec (-90) then -90 else dec)%float
  /\ PrimFloat.ltb 90 (capDec dec) = false
  /\ PrimFloat.ltb (capDec dec) (-90) = false.
Proof.
  unfold capDec, gtb. cbn [ltb of_Z F64.arith].
  rewrite float64_90, float64_minus_90.
  destruct (PrimFloat.ltb 90 dec) eqn:Hhi.
  - repeat split; reflexivity.
  - destruct (PrimFloat.ltb dec (-90)) eqn:Hlo.
    + repeat split; reflexivity.
    + repeat split; assumption.
Qed.

End HelperPropertiesFloat64.

(* ------------------------------------------------------------------ *)
(** * Further properties: the loop over the visits *)

Section RunProperties.
Context {F : Type} `{Arith F} `{Trig F} `{Collaborators F}.

(** The candidates follow the query: position by position, the row of the
    star at the returned index, projected and patched. *)
Lemma candidates_rows (stars_array : list (Star F)) t radius n_patches
    visit a :
  candidates (merge_arrays stars_array) t radius n_patches visit = Ok a ->
  Forall2
    (fun i r =>
       exists st, stars_array !! i = Some st
                  /\ r = with_patches visit n_patches
                           (with_projection visit (zero_row st)))
    (query_ball_point t (visit_direction visit) radius) a.
Proof.
  unfold candidates, kdtree_query.
  destruct (finite_point _); cbn [res_bind]; [|discriminate].
  destruct (getitem _ _) as [rows|e] eqn:Hrows; simpl; [|discriminate].
  intros [= <-]. apply getitem_Ok in Hrows.
  apply Forall2_fmap_r, Forall2_fmap_r.
  eapply Forall2_impl; [exact Hrows|]. cbv beta.
  intros i r Hi. unfold merge_arrays in Hi. rewrite list_lookup_fmap in Hi.
  destruct (stars_array !! i) as [st|]; [|discriminate].
  injection Hi as <-. eauto.
Qed.

Lemma star_of_candidate visit n_patches (r : Row F) :
  star (with_patches visit n_patches (with_projection visit r)) = star r.
Proof.
  unfold with_patches, with_projection.
  destruct (stars_project visit r) as [[px py] prad].
  destruct (assign_patches visit n_patches _) as [pid sub]. reflexivity.
Qed.

Lemma patch_of_candidate visit n_patches (r : Row F) :
  patch_id (with_patches visit n_patches (with_projection visit r))
  = (assign_patches visit n_patches (with_projection visit r)).1.
Proof.
  unfold with_patches.
  destruct (assign_patches visit n_patches _) as [pid sub]. reflexivity.
Qed.

(** The records of a visit follow its query, index by index. *)
Lemma visit_block_follows_query (stars_array : list (Star F)) starTree radius
    offsets lsst_filter n_patches uncert_floor visit block :
  visit_block (merge_arrays stars_array) starTree radius offsets lsst_filter
    n_patches uncert_floor visit = Ok block ->
  Forall2
    (fun i o =>
       exists st,
         stars_array !! i = Some st
         /\ o_id o = id st /\ o_ra o = ra st /\ o_decl o = decl st
         /\ o_mag o = mag st (mag_column lsst_filter)
         /\ o_patch_id o
            = (assign_patches visit n_patches
                 (with_projection visit (zero_row st))).1)
    (query_ball_point starTree (visit_direction visit) radius) block.
Proof.
  intros Hblock. rewrite visit_block_records in Hblock.
  destruct (candidates _ _ _ _ _) as [a|e] eqn:Ha; [|discriminate].
  cbn [res_bind] in Hblock.
  destruct (observed_mags _ _ _ _) as [obs|e] eqn:Hobs; [|discriminate].
  injection Hblock as <-.
  apply observed_mags_length in Hobs.
  apply candidates_rows in Ha.
  apply Forall2_same_length_lookup_2.
  - rewrite length_zip_with, Hobs, Nat.min_id. eapply Forall2_length, Ha.
  - intros j i o Hi Ho.
    apply lookup_zip_with_Some in Ho as (r & m & -> & Hr & _).
    destruct (Forall2_lookup_lr _ _ _ _ _ _ Ha Hi Hr) as (st & Hst & ->).
    exists st. split; [exact Hst|]. simpl.
    rewrite star_of_candidate, patch_of_candidate. simpl. auto.
Qed.

(** X8.  The result is laid out visit by visit, in the order of [visits],
    and within a visit index by index as the tree query returned them:
    each record carries the [id], [ra], [decl] and band magnitude of the
    catalogue star at that index, and the patch [assign_patches] gives to
    that star once projected.  Nothing is sorted, merged or dropped. *)
Theorem records_follow_the_queries visits stars_array offsets lsst_filter
    n_patches radius_fov seed uncert_floor verbose (s : State F) result :
  (generate_catalog visits stars_array offsets lsst_filter n_patches
     radius_fov seed uncert_floor verbose s).1 = Ok (Some result) ->
  exists starTree blocks,
    star_tree stars_array = Ok starTree
    /\ result = concat blocks
    /\ Forall2
         (fun visit block =>
            Forall2
              (fun i o =>
                 exists st,
                   stars_array !! i = Some st
                   /\ o_id o = id st /\ o_ra o = ra st /\ o_decl o = decl st
                   /\ o_mag o = mag st (mag_column lsst_filter)
                   /\ o_patch_id o
                      = (assign_patches visit n_patches
                           (with_projection visit (zero_row st))).1)
              (query_ball_point starTree (visit_direction visit)
                 (treeRadius radius_fov))
              block)
         visits blocks.
Proof.
  intros Hrun.
  apply generate_catalog_blocks in Hrun
    as (offs & starTree & blocks & _ & Htree & _ & -> & Hblocks).
  exists starTree, blocks. split; [exact Htree|]. split; [reflexivity|].
  eapply Forall2_impl; [exact Hblocks|]. cbv beta.
  intros visit block. apply visit_block_follows_query.
Qed.

Lemma apply_offsets_raises (pre : list (Offset F)) bad post stars_in visit e :
  (forall o dm, o ∈ pre -> exists d, call o stars_in visit dm = Ok d) ->
  (forall dm, call bad stars_in visit dm = Raise e) ->
  forall dmags,
    apply_offsets (pre ++ bad :: post) stars_in visit dmags = Raise e.
Proof.
  intros Hpre Hbad. induction pre as [|o pre IH]; simpl; intros dmags.
  - rewrite Hbad. reflexivity.
  - destruct (Hpre o dmags) as [d ->]; [left|].
    apply IH. intros o' dm Ho'. apply Hpre. right. exact Ho'.
Qed.

Lemma res_mapM_app_raise {A B} (f : A -> res B) before x after bs e :
  res_mapM f before = Ok bs -> f x = Raise e ->
  res_mapM f (before ++ x :: after) = Raise e.
Proof.
  revert bs. induction before as [|a before IH]; simpl; intros bs.
  - intros _ ->. reflexivity.
  - destruct (f a) as [b|e']; simpl; [|discriminate].
    destruct (res_mapM f before) as [bs'|e'] eqn:Hb; simpl; [|discriminate].
    intros _ Hx. rewrite (IH _ eq_refl Hx). reflexivity.
Qed.

(** The first visit whose turn raises ends the run with that exception. *)
Lemma failing_visit_aborts before visit after stars_array offsets lsst_filter
    n_patches radius_fov seed uncert_floor verbose (s : State F) starTree
    blocks1 e :
  star_tree stars_array = Ok starTree ->
  valid_seed seed = true ->
  res_mapM
    (visit_block (merge_arrays stars_array) starTree (treeRadius radius_fov)
       offsets lsst_filter n_patches uncert_floor) before = Ok blocks1 ->
  visit_block (merge_arrays stars_array) starTree (treeRadius radius_fov)
    offsets lsst_filter n_patches uncert_floor visit = Raise e ->
  (generate_catalog (before ++ visit :: after) stars_array (Some offsets)
     lsst_filter n_patches radius_fov seed uncert_floor verbose s).1
  = Raise e.
Proof.
  intros Htree Hseed Hbefore Hvisit.
  pose proof (generate_catalog_run (before ++ visit :: after) stars_array
                offsets lsst_filter n_patches radius_fov seed uncert_floor
                verbose s) as (Hres & _).
  cbv zeta in Hres. rewrite Hres. unfold run_result, check_seed.
  rewrite Htree, Hseed.
  cbn [res_bind]. rewrite (res_mapM_app_raise _ _ _ _ _ _ Hbefore Hvisit).
  reflexivity.
Qed.

(** X10.  An exception raised by an offset is not caught: if the tree is
    built and the seed accepted and, on the candidates of some visit, the
    offsets before [bad] return and [bad] raises [e], while the visits
    before that one went through, the run raises [e]; the records of the
    earlier visits are lost and no result is returned. *)
Theorem offset_exception_aborts_run before visit after stars_array pre bad
    post lsst_filter n_patches radius_fov seed uncert_floor verbose
    (s : State F) starTree blocks1 a e :
  star_tree stars_array = Ok starTree ->
  valid_seed seed = true ->
  res_mapM
    (visit_block (merge_arrays stars_array) starTree (treeRadius radius_fov)
       (pre ++ bad :: post) lsst_filter n_patches uncert_floor) before
  = Ok blocks1 ->
  candidates (merge_arrays stars_array) starTree (treeRadius radius_fov)
    n_patches visit = Ok a ->
  (forall o dm, o ∈ pre -> exists d, call o a visit dm = Ok d) ->
  (forall dm, call bad a visit dm = Raise e) ->
  (generate_catalog (before ++ visit :: after) stars_array
     (Some (pre ++ bad :: post)) lsst_filter n_patches radius_fov seed
     uncert_floor verbose s).1
  = Raise e.
Proof.
  intros Htree Hseed Hbefore Ha Hpre Hbad.
  eapply failing_visit_aborts; [exact Htree | exact Hseed | exact Hbefore |].
  rewrite visit_block_records, Ha. cbn [res_bind].
  unfold observed_mags.
  rewrite (apply_offsets_raises pre bad post a visit e Hpre Hbad).
  reflexivity.
Qed.

Lemma iadd_raises (obs d : list F) e :
  iadd obs d = Raise e -> exists msg, e = ValueError msg.
Proof.
  unfold iadd. destruct (length d =? length obs)%nat; [discriminate|].
  destruct d as [|d0 [|d1 d]]; try discriminate;
    destruct obs as [|o0 [|o1 obs]]; intros [= <-]; eauto.
Qed.

Lemma add_all_misaligned (ds : list (list F)) :
  forall obs,
    (exists d, d ∈ ds /\ length d <> length obs /\ length d <> 1%nat) ->
    exists msg, add_all ds obs = Raise (ValueError msg).
Proof.
  induction ds as [|d ds IH]; intros obs (d' & Hin & Hlen & Hone).
  - inversion Hin.
  - simpl. destruct (iadd obs d) as [obs1|e] eqn:Hadd; simpl.
    + apply IH. exists d'. rewrite (iadd_length _ _ _ Hadd).
      apply elem_of_cons in Hin as [->|Hin]; [|auto].
      exfalso. unfold iadd in Hadd.
      destruct (Nat.eqb_spec (length d) (length obs)); [contradiction|].
      destruct d as [|d0 [|d1 d]];
        [destruct obs as [|? [|? ?]]; discriminate
        | simpl in Hone; lia
        | destruct obs as [|? [|? ?]]; discriminate].
    + apply iadd_raises in Hadd as [msg ->]. eauto.
Qed.

(** X11.  A delta array that is neither as long as the candidates nor of
    length one is not truncated or padded: when the tree is built, the
    seed accepted, the earlier visits went through and the dict of a visit
    holds such an array, the in-place sum fails and the run raises
    [ValueError] instead of returning records. *)
Theorem misaligned_delta_raises_ValueError before visit after stars_array
    offsets lsst_filter n_patches radius_fov seed uncert_floor verbose
    (s : State F) starTree blocks1 a dmags :
  star_tree stars_array = Ok starTree ->
  valid_seed seed = true ->
  res_mapM
    (visit_block (merge_arrays stars_array) starTree (treeRadius radius_fov)
       offsets lsst_filter n_patches uncert_floor) before = Ok blocks1 ->
  candidates (merge_arrays stars_array) starTree (treeRadius radius_fov)
    n_patches visit = Ok a ->
  apply_offsets offsets a visit [] = Ok dmags ->
  (exists key d, (key, d) ∈ dmags
                 /\ length d <> length a /\ length d <> 1%nat) ->
  exists msg,
    (generate_catalog (before ++ visit :: after) stars_array (Some offsets)
       lsst_filter n_patches radius_fov seed uncert_floor verbose s).1
    = Raise (ValueError msg).
Proof.
  intros Htree Hseed Hbefore Ha Hoff (key & d & Hin & Hlen & Hone).
  destruct (add_all_misaligned (map snd dmags) (true_mags lsst_filter a))
    as [msg Hsum].
  { exists d. split; [|split].
    - apply list_elem_of_fmap. exists (key, d). auto.
    - unfold true_mags. rewrite length_map. exact Hlen.
    - exact Hone. }
  exists msg.
  eapply failing_visit_aborts; [exact Htree | exact Hseed | exact Hbefore |].
  rewrite visit_block_records, Ha. cbn [res_bind].
  rewrite observed_mags_entries, Hoff. cbn [res_bind].
  rewrite Hsum. reflexivity.
Qed.

(** X12.  The visits do not influence one another ([dmags] and [stars_in]
    are made anew in every turn): for offsets that are functions of their
    arguments, as the embedding takes them, the run over [visits1 ++
    visits2] returns the records of the run over [visits1] followed by
    those of the run over [visits2]. *)
Theorem runs_concatenate visits1 visits2 stars_array offsets lsst_filter
    n_patches radius_fov seed uncert_floor verbose (s1 s2 s : State F)
    result1 result2 :
  (generate_catalog visits1 stars_array (Some offsets) lsst_filter n_patches
     radius_fov seed uncert_floor verbose s1).1 = Ok (Some result1) ->
  (generate_catalog visits2 stars_array (Some offsets) lsst_filter n_patches
     radius_fov seed uncert_floor verbose s2).1 = Ok (Some result2) ->
  (generate_catalog (visits1 ++ visits2) stars_array (Some offsets)
     lsst_filter n_patches radius_fov seed uncert_floor verbose s).1
  = Ok (Some (result1 ++ result2)).
Proof.
  intros Hrun1 Hrun2.
  pose proof (generate_catalog_seed _ _ _ _ _ _ _ _ _ _ _ Hrun1) as Hseed.
  apply generate_catalog_blocks in Hrun1
    as (offs1 & t1 & blocks1 & [= <-] & Ht1 & Hne1 & -> & Hb1).
  apply generate_catalog_blocks in Hrun2
    as (offs2 & t2 & blocks2 & [= <-] & Ht2 & _ & -> & Hb2).
  rewrite Ht1 in Ht2. injection Ht2 as <-.
  pose proof (generate_catalog_run (visits1 ++ visits2) stars_array offsets
                lsst_filter n_patches radius_fov seed uncert_floor verbose s)
    as (Hres & _).
  cbv zeta in Hres. rewrite Hres. unfold run_result, check_seed.
  rewrite Ht1, Hseed. cbn [res_bind].
  assert (Hmap : res_mapM
                   (visit_block (merge_arrays stars_array) t1
                      (treeRadius radius_fov) offsets lsst_filter n_patches
                      uncert_floor) (visits1 ++ visits2)
                 = Ok (blocks1 ++ blocks2)).
  { apply res_mapM_Ok, Forall2_app; assumption. }
  rewrite Hmap. cbn [res_bind].
  assert (Hcat : concatenate (blocks1 ++ blocks2)
                 = Ok (concat blocks1 ++ concat blocks2)).
  { unfold concatenate. rewrite concat_app.
    destruct blocks1 as [|b bs]; [|reflexivity].
    inversion Hb1; subst. congruence. }
  rewrite Hcat. reflexivity.
Qed.

End RunProperties.

(* ------------------------------------------------------------------ *)
(** * Further properties: what a run leaves behind, and what an offset sees *)

Section StateProperties.
Context {F : Type} `{Arith F} `{Trig F} `{Collaborators F}.

Lemma visit_body_trace stars starTree radius offsets lsst_filter n_patches
    uncert_floor verbose n_visits acc i visit (s : State F) :
  let out := visit_body stars starTree radius offsets lsst_filter n_patches
               uncert_floor verbose n_visits acc i visit s in
  forall acc', out.1 = Ok acc' ->
    events out.2
    = events s ++ (if verbose then [Progress i n_visits] else []).
Proof.
  unfold visit_body.
  destruct (treexyz _ _) as [[vx vy] vz].
  unfold bind, load, lift, alloc, store, ret, kdtree_query; simpl.
  destruct (is_finite vx && is_finite vy && is_finite vz); simpl;
    [|discriminate].
  destruct (getitem _ _) as [sel|e]; simpl; [|discriminate].
  repeat (rewrite lookup_insert_eq; simpl).
  destruct (apply_offsets _ _ _ _) as [dmags|e]; simpl; [|discriminate].
  destruct (total_dmags _ _ _) as [obs_mag|e]; simpl; [|discriminate].
  destruct (set_column with_observed_mag _ _) as [a1|e]; simpl;
    [|discriminate].
  repeat (rewrite lookup_insert_eq; simpl).
  destruct (set_column with_mag_uncert _ _) as [a2|e]; simpl; [|discriminate].
  destruct verbose; simpl; intros acc' _;
    [reflexivity | rewrite app_nil_r; reflexivity].
Qed.

Lemma for_visits_trace stars starTree radius offsets lsst_filter n_patches
    uncert_floor verbose n_visits visits :
  forall i acc (s : State F) res,
    let out := for_visits
                 (visit_body stars starTree radius offsets lsst_filter
                    n_patches uncert_floor verbose n_visits)
                 i visits acc s in
    out.1 = Ok res ->
    events out.2
    = events s
      ++ (if verbose
          then map (fun k => Progress k n_visits) (seq i (length visits))
          else []).
Proof.
  induction visits as [|visit visits IH]; intros i acc s res; simpl.
  - intros _. destruct verbose; rewrite app_nil_r; reflexivity.
  - unfold bind.
    pose proof (visit_body_trace stars starTree radius offsets lsst_filter
                  n_patches uncert_floor verbose n_visits acc i visit s)
      as Hturn.
    destruct (visit_body _ _ _ _ _ _ _ _ _ _ _ _ s) as [[acc1|e] s1];
      simpl in *; [|discriminate].
    pose proof (Hturn acc1 eq_refl) as He.
    intros Hres. rewrite (IH (S i) acc1 s1 res Hres), He.
    destruct verbose; rewrite <- app_assoc; reflexivity.
Qed.

(** Once the tree is built and the seed accepted, the generator is
    seeded, whatever happens next; a run that returns has printed one
    progress line per visit when [verbose], and nothing otherwise. *)
Lemma generate_catalog_state visits stars_array offsets lsst_filter
    n_patches radius_fov seed uncert_floor verbose (s : State F) starTree :
  star_tree stars_array = Ok starTree ->
  valid_seed seed = true ->
  let out := generate_catalog visits stars_array (Some offsets) lsst_filter
               n_patches radius_fov seed uncert_floor verbose s in
  np_seed out.2 = Some seed
  /\ forall result, out.1 = Ok (Some result) ->
       events out.2
       = events s
         ++ (if verbose
             then map (fun i => Progress i (length visits))
                    (seq 0 (length visits))
             else []).
Proof.
  intros Htree Hvalid out. destruct out as [r s'] eqn:Hout. subst out. simpl.
  revert Hout. unfold generate_catalog.
  unfold bind at 1. unfold alloc at 1.
  unfold bind at 1. unfold load at 1. simpl.
  rewrite lookup_insert_eq. simpl.
  unfold star_tree in Htree. rewrite Htree.
  unfold bind at 1. unfold lift at 1.
  unfold bind at 1. unfold np_random_seed at 1. rewrite Hvalid.
  unfold bind at 1.
  match goal with
  | |- context [for_visits ?body 0%nat visits [] ?s1] =>
      pose proof (for_visits_run (next_ref s) starTree (treeRadius radius_fov)
                    offsets lsst_filter n_patches uncert_floor verbose
                    (length visits) visits 0%nat [] s1) as Hloop;
      pose proof (for_visits_trace (next_ref s) starTree
                    (treeRadius radius_fov) offsets lsst_filter n_patches
                    uncert_floor verbose (length visits) visits 0%nat [] s1)
        as Htrace;
      destruct (for_visits body 0%nat visits [] s1) as [r2 s2]
  end.
  simpl in Hloop, Htrace. destruct Hloop as [_ Hext]; [lia|].
  destruct Hext as (_ & _ & Hseed & _). simpl in Hseed.
  destruct r2 as [blocks|e].
  - pose proof (Htrace blocks eq_refl) as He.
    unfold bind, lift, ret.
    destruct (concatenate blocks) as [result|e]; simpl;
      intros [= <- <-]; (split; [exact Hseed|]); intros res Hres;
      [exact He | discriminate].
  - intros [= <- <-]. split; [exact Hseed|]. intros res Hres. discriminate.
Qed.

(** X13.  [generate_catalog] reseeds numpy's global generator as a side
    effect, with [seed], exactly when it is given a list of offsets, the
    tree can be built and [seed] lies in [0 .. 2**32 - 1], and then
    whether or not the run goes on to fail; otherwise the generator is
    left as it was. *)
Theorem numpy_seed_side_effect visits stars_array offsets lsst_filter
    n_patches radius_fov seed uncert_floor verbose (s : State F) :
  np_seed (generate_catalog visits stars_array offsets lsst_filter n_patches
             radius_fov seed uncert_floor verbose s).2
  = match offsets, star_tree stars_array with
    | Some _, Ok _ =>
        if (0 <=? seed)%Z && (seed <? 2 ^ 32)%Z then Some seed
        else np_seed s
    | _, _ => np_seed s
    end.
Proof.
  destruct offsets as [offs|]; [|reflexivity].
  pose proof (generate_catalog_run visits stars_array offs lsst_filter
                n_patches radius_fov seed uncert_floor verbose s)
    as (_ & _ & _ & _ & Hstop & Hrefused).
  cbv zeta in Hstop, Hrefused.
  destruct (star_tree stars_array) as [t|e] eqn:Htree.
  - fold (valid_seed seed). destruct (valid_seed seed) eqn:Hvalid.
    + apply (generate_catalog_state visits stars_array offs lsst_filter
               n_patches radius_fov seed uncert_floor verbose s t Htree
               Hvalid).
    + rewrite (Hrefused eq_refl). reflexivity.
  - rewrite (Hstop e eq_refl). reflexivity.
Qed.

(** X14.  A run that returns records has, with [verbose], printed one
    progress line per visit, [i] running from 0 to [n_visits - 1] (so the
    progress shown never reaches the total), and without it nothing; it
    emits no warning; and [verbose] does not change the records. *)
Theorem successful_run_trace visits stars_array offsets lsst_filter
    n_patches radius_fov seed uncert_floor verbose (s : State F) result :
  (generate_catalog visits stars_array offsets lsst_filter n_patches
     radius_fov seed uncert_floor verbose s).1 = Ok (Some result) ->
  let out := generate_catalog visits stars_array offsets lsst_filter
               n_patches radius_fov seed uncert_floor verbose s in
  events out.2
  = events s
    ++ (if verbose
        then map (fun i => Progress i (length visits))
               (seq 0 (length visits))
        else [])
  /\ forall verbose',
       (generate_catalog visits stars_array offsets lsst_filter n_patches
          radius_fov seed uncert_floor verbose' s).1 = Ok (Some result).
Proof.
  intros Hrun out. subst out.
  pose proof (generate_catalog_seed _ _ _ _ _ _ _ _ _ _ _ Hrun) as Hvalid.
  destruct (generate_catalog_blocks _ _ _ _ _ _ _ _ _ _ _ Hrun)
    as (offs & t & _ & -> & Htree & _).
  destruct (generate_catalog_state visits stars_array offs lsst_filter
              n_patches radius_fov seed uncert_floor verbose s t Htree
              Hvalid) as [_ Hok].
  split; [exact (Hok result Hrun)|].
  intros verbose'.
  pose proof (generate_catalog_run visits stars_array offs lsst_filter
                n_patches radius_fov seed uncert_floor verbose s)
    as (Hres & _).
  pose proof (generate_catalog_run visits stars_array offs lsst_filter
                n_patches radius_fov seed uncert_floor verbose' s)
    as (Hres' & _).
  cbv zeta in Hres, Hres'. rewrite Hres', <- Hres. exact Hrun.
Qed.

Lemma apply_offsets_app (pre post : list (Offset F)) stars_in visit :
  forall dmags,
    apply_offsets (pre ++ post) stars_in visit dmags
    = res_bind (apply_offsets pre stars_in visit dmags)
        (fun dm => apply_offsets post stars_in visit dm).
Proof.
  induction pre as [|o pre IH]; simpl; intros dmags; [reflexivity|].
  destruct (call o stars_in visit dmags) as [d|e]; [apply IH | reflexivity].
Qed.

Lemma dict_set_keys (k : string) (v : list F) (d : dict F) :
  forall k', k' ∈ map fst (dict_set k v d) <-> k' = k \/ k' ∈ map fst d.
Proof.
  intros k'. destruct (decide (k ∈ map fst d)) as [Hin|Hnin].
  - rewrite dict_set_present by exact Hin. split; [auto|].
    intros [->|?]; assumption.
  - rewrite dict_set_fresh by exact Hnin. rewrite fmap_app, elem_of_app.
    simpl. rewrite list_elem_of_singleton. tauto.
Qed.

Lemma apply_offsets_keys (offsets : list (Offset F)) stars_in visit :
  forall dmags dmags',
    apply_offsets offsets stars_in visit dmags = Ok dmags' ->
    forall k, k ∈ map fst dmags'
              <-> k ∈ map fst dmags \/ k ∈ map newkey offsets.
Proof.
  induction offsets as [|o offsets IH]; simpl; intros dmags dmags'.
  - intros [= <-] k. split; [auto|]. intros [?|Hk]; [assumption|].
    inversion Hk.
  - destruct (call o stars_in visit dmags) as [d|e]; [|discriminate].
    intros Hrest k. rewrite (IH _ _ Hrest k), dict_set_keys, elem_of_cons.
    tauto.
Qed.

(** X15.  The offsets are called in list order, each with the dict the
    earlier ones have filled: if the loop over [pre ++ o :: post] returns,
    then [o] was called with the dict left by [pre], whose keys are
    exactly the keys of [pre] (none of [o] or [post] unless shared), its
    delta was stored under its key, and [post] went on from there. *)
Theorem offset_sees_earlier_deltas (pre : list (Offset F)) o post stars_in
    visit final :
  apply_offsets (pre ++ o :: post) stars_in visit [] = Ok final ->
  exists dmags d,
    apply_offsets pre stars_in visit [] = Ok dmags
    /\ (forall k, k ∈ map fst dmags <-> k ∈ map newkey pre)
    /\ call o stars_in visit dmags = Ok d
    /\ apply_offsets post stars_in visit (dict_set (newkey o) d dmags)
       = Ok final
    /\ dict_get (newkey o) (dict_set (newkey o) d dmags) = Ok d.
Proof.
  rewrite apply_offsets_app.
  destruct (apply_offsets pre stars_in visit []) as [dmags|e] eqn:Hpre;
    simpl; [|discriminate].
  destruct (call o stars_in visit dmags) as [d|e] eqn:Hcall; [|discriminate].
  intros Hpost. exists dmags, d.
  split; [reflexivity|]. split.
  - intros k. rewrite (apply_offsets_keys _ _ _ _ _ Hpre k).
    split; [intros [Hk|Hk]; [inversion Hk | exact Hk] | auto].
  - split; [exact Hcall|]. split; [exact Hpost|].
    rewrite dict_get_set, String.eqb_refl. reflexivity.
Qed.

End StateProperties.

(* ------------------------------------------------------------------ *)
(** * Further properties of a run in exact arithmetic *)

Section ExactRunProperties.
Import Exact.
Local Open Scope R_scope.
Context `{Collaborators R}.

(** X9.  Over the reals the uncertainty of every record is non-negative
    and at least [|uncert_floor|], whatever the uncertainty model
    returns. *)
Theorem uncertainty_at_least_floor visits stars_array offsets lsst_filter
    n_patches radius_fov seed uncert_floor verbose (s : State R) result :
  (generate_catalog visits stars_array offsets lsst_filter n_patches
     radius_fov seed uncert_floor verbose s).1 = Ok (Some result) ->
  Forall (fun o => 0 <= o_mag_uncert o /\ Rabs uncert_floor <= o_mag_uncert o)
    result.
Proof.
  intros Hrun.
  apply generate_catalog_blocks in Hrun
    as (offs & starTree & blocks & _ & _ & _ & -> & Hblocks).
  apply Forall_concat.
  eapply Forall2_Forall_r; [exact Hblocks|].
  apply Forall_forall. intros visit _. cbv beta.
  intros block Hblock. rewrite visit_block_records in Hblock.
  destruct (candidates _ _ _ _ _) as [a|e]; [|discriminate].
  cbn [res_bind] in Hblock.
  destruct (observed_mags _ _ _ _) as [obs|e]; [|discriminate].
  injection Hblock as <-.
  apply Forall_forall. intros o Ho.
  apply list_elem_of_lookup in Ho as [j Hj].
  apply lookup_zip_with_Some in Hj as (r & m & -> & _ & _).
  simpl. unfold mag_error, pow2. simpl.
  set (b := calc_mag_errors lsst_filter m (fiveSigmaDepth visit)).
  split; [apply sqrt_pos|].
  rewrite <- (sqrt_Rsqr_abs uncert_floor). unfold Rsqr.
  apply sqrt_le_1; nra.
Qed.

(** X6.  Over the reals a catalogue star gets a record in the block of a
    visit exactly when the cosine of its angular separation from the
    pointing (the spherical law of cosines on [ra], [decl] and the visit's
    [ra], [dec]) is at least the cosine of [radius_fov]: the chord cut of
    the tree selects by angular distance, and misses no star. *)
Theorem selection_is_by_angular_separation visits stars_array offsets
    lsst_filter n_patches radius_fov seed uncert_floor verbose
    (s : State R) result :
  (generate_catalog visits stars_array offsets lsst_filter n_patches
     radius_fov seed uncert_floor verbose s).1 = Ok (Some result) ->
  exists blocks,
    result = concat blocks
    /\ Forall2
         (fun visit block =>
            forall st, st ∈ stars_array ->
              (Rtrigo_def.cos (radians radius_fov)
               <= cos_separation (radians (ra st)) (radians (decl st))
                    (radians (v_ra visit)) (radians (v_dec visit)))
              <-> exists o, o ∈ block /\ o_id o = id st
                            /\ o_ra o = ra st /\ o_decl o = decl st)
         visits blocks.
Proof.
  intros Hrun.
  apply generate_catalog_blocks in Hrun
    as (offs & starTree & blocks & _ & Htree & _ & -> & Hblocks).
  exists blocks. split; [reflexivity|].
  apply star_tree_data in Htree as [Hdata _].
  eapply Forall2_impl; [exact Hblocks|]. cbv beta.
  intros visit block Hblock st Hst.
  apply visit_block_follows_query in Hblock.
  assert (Hdir : forall i st',
            stars_array !! i = Some st' ->
            kd_data starTree !! i
            = Some (treexyz (radians (ra st')) (radians (decl st')))).
  { intros i st' Hi. rewrite Hdata. unfold merge_arrays.
    rewrite !list_lookup_fmap, Hi. reflexivity. }
  split.
  - intros Hin. apply list_elem_of_lookup in Hst as [i Hi].
    assert (Hq : i ∈ query_ball_point starTree (visit_direction visit)
                       (treeRadius radius_fov)).
    { apply elem_of_query_ball_point. eexists. split; [apply Hdir, Hi|].
      apply within_radius_iff, Hin. }
    apply list_elem_of_lookup in Hq as [j Hj].
    destruct (Forall2_lookup_l _ _ _ _ _ Hblock Hj)
      as (o & Ho & st' & Hst' & Hid & Hra & Hdecl & _).
    assert (st' = st) as -> by congruence.
    exists o. split; [apply list_elem_of_lookup; eauto | auto].
  - intros (o & Ho & Hid & Hra & Hdecl).
    apply list_elem_of_lookup in Ho as [j Hj].
    destruct (Forall2_lookup_r _ _ _ _ _ Hblock Hj)
      as (i & Hi & st' & Hst' & _ & Hra' & Hdecl' & _).
    assert (Hq : i ∈ query_ball_point starTree (visit_direction visit)
                       (treeRadius radius_fov))
      by (apply list_elem_of_lookup; eauto).
    apply elem_of_query_ball_point in Hq as (p & Hp & Hle).
    rewrite (Hdir _ _ Hst') in Hp. injection Hp as <-.
    apply within_radius_iff in Hle.
    rewrite <- Hra, <- Hdecl, Hra', Hdecl'. exact Hle.
Qed.

End ExactRunProperties.

(* ------------------------------------------------------------------ *)
(** * The further properties on the scenario *)

Section ScenarioRuns.
Import Exact Scenario.
Local Open Scope R_scope.

Lemma shift_calls (key : string) (d : R) (stars_in : list (Row R))
    (visit : Visit R) :
  forall o (dm : dict R), o ∈ [shift key d] ->
    exists delta, call o stars_in visit dm = Ok delta.
Proof.
  intros o dm Ho. apply list_elem_of_singleton in Ho as ->.
  eexists. reflexivity.
Qed.

Lemma visit_block_visit_far (key : string) (d : R) :
  visit_block (merge_arrays [star0]) tree0 (treeRadius (9 / 5))
    [shift key d] "r" 16 (5 / 1000) visit_far
  = Ok [].
Proof.
  apply visit_block_no_candidates; [apply kdtree_query_visit_far|].
  intros o dm Ho. apply list_elem_of_singleton in Ho as ->. reflexivity.
Qed.

(** The visit opposite to the star sees nothing: its run returns the empty
    array. *)
Lemma run_visit_far (key : string) (d : R) :
  run [visit_far] [star0] (Some [shift key d]) = Ok (Some []).
Proof.
  unfold run.
  pose proof (generate_catalog_run [visit_far] [star0] [shift key d] "r" 16
                (9 / 5) 42 (5 / 1000) true init_state) as (Hres & _).
  cbv zeta in Hres. rewrite Hres. unfold run_result.
  rewrite star_tree_star0. cbn [res_bind res_mapM].
  rewrite visit_block_visit_far. reflexivity.
Qed.

End ScenarioRuns.

Section FurtherWitnesses.
Import Exact Scenario.
Local Open Scope R_scope.

(** X6 on the scenario. *)
Lemma selection_is_by_angular_separation_witness :
  run [visit0] [star0] (Some [shift "zp" (-1 / 10)])
  = Ok (Some [record0 (15 + -1 / 10)])
  /\ exists blocks,
       [record0 (15 + -1 / 10)] = concat blocks
       /\ Forall2
            (fun visit block =>
               forall st, st ∈ [star0] ->
                 (Rtrigo_def.cos (radians (9 / 5))
                  <= cos_separation (radians (ra st)) (radians (decl st))
                       (radians (v_ra visit)) (radians (v_dec visit)))
                 <-> exists o, o ∈ block /\ o_id o = id st
                               /\ o_ra o = ra st /\ o_decl o = decl st)
            [visit0] blocks.
Proof.
  split; [apply run_one_shift|].
  apply (selection_is_by_angular_separation [visit0] [star0]
           (Some [shift "zp" (-1 / 10)]) "r" 16 (9 / 5) 42 (5 / 1000) true
           init_state [record0 (15 + -1 / 10)] (run_one_shift (-1 / 10))).
Defined.

(** X8 on the scenario. *)
Lemma records_follow_the_queries_witness :
  run [visit0] [star0] (Some [shift "zp" (-1 / 10)])
  = Ok (Some [record0 (15 + -1 / 10)])
  /\ exists starTree blocks,
       star_tree [star0] = Ok starTree
       /\ [record0 (15 + -1 / 10)] = concat blocks
       /\ Forall2
            (fun visit block =>
               Forall2
                 (fun i o =>
                    exists st,
                      [star0] !! i = Some st
                      /\ o_id o = id st /\ o_ra o = ra st
                      /\ o_decl o = decl st
                      /\ o_mag o = mag st (mag_column "r")
                      /\ o_patch_id o
                         = (assign_patches visit 16
                              (with_projection visit (zero_row st))).1)
                 (query_ball_point starTree (visit_direction visit)
                    (treeRadius (9 / 5)))
                 block)
            [visit0] blocks.
Proof.
  split; [apply run_one_shift|].
  apply (records_follow_the_queries [visit0] [star0]
           (Some [shift "zp" (-1 / 10)]) "r" 16 (9 / 5) 42 (5 / 1000) true
           init_state [record0 (15 + -1 / 10)] (run_one_shift (-1 / 10))).
Defined.

(** X9 on the scenario. *)
Lemma uncertainty_at_least_floor_witness :
  run [visit0] [star0] (Some [shift "zp" (-1 / 10)])
  = Ok (Some [record0 (15 + -1 / 10)])
  /\ Forall (fun o => 0 <= o_mag_uncert o
                      /\ Rabs (5 / 1000) <= o_mag_uncert o)
       [record0 (15 + -1 / 10)].
Proof.
  split; [apply run_one_shift|].
  apply (uncertainty_at_least_floor [visit0] [star0]
           (Some [shift "zp" (-1 / 10)]) "r" 16 (9 / 5) 42 (5 / 1000) true
           init_state [record0 (15 + -1 / 10)] (run_one_shift (-1 / 10))).
Defined.

(** X10 on the scenario: the second offset raises on the first of two
    visits. *)
Lemma offset_exception_aborts_run_witness :
  star_tree [star0] = Ok tree0
  /\ valid_seed 42 = true
  /\ candidates (merge_arrays [star0]) tree0 (treeRadius (9 / 5)) 16 visit0
     = Ok [row0]
  /\ (generate_catalog ([] ++ visit0 :: [visit_far]) [star0]
        (Some ([shift "zp" 1] ++ Misbehaving.failing "snr" "boom" :: []))
        "r" 16 (9 / 5) 42 (5 / 1000) true init_state).1
     = Raise (OffsetError "boom").
Proof.
  split; [apply star_tree_star0|]. split; [reflexivity|].
  split; [apply candidates_visit0|].
  apply (offset_exception_aborts_run [] visit0 [visit_far] [star0]
           [shift "zp" 1] (Misbehaving.failing "snr" "boom") [] "r" 16
           (9 / 5) 42 (5 / 1000) true init_state tree0 [] [row0]
           (OffsetError "boom") star_tree_star0 eq_refl eq_refl
           candidates_visit0
           (shift_calls "zp" 1 [row0] visit0) (fun _ => eq_refl)).
Defined.

(** X11 on the scenario: an offset that returns two values for the one
    candidate. *)
Lemma misaligned_delta_raises_ValueError_witness :
  star_tree [star0] = Ok tree0
  /\ valid_seed 42 = true
  /\ candidates (merge_arrays [star0]) tree0 (treeRadius (9 / 5)) 16 visit0
     = Ok [row0]
  /\ apply_offsets [Misbehaving.two_values "zp"] [row0] visit0 []
     = Ok [("zp", [1; 2])]
  /\ exists msg,
       (generate_catalog ([] ++ visit0 :: []) [star0]
          (Some [Misbehaving.two_values "zp"]) "r" 16 (9 / 5) 42 (5 / 1000)
          true init_state).1
       = Raise (ValueError msg).
Proof.
  split; [apply star_tree_star0|]. split; [reflexivity|].
  split; [apply candidates_visit0|]. split; [reflexivity|].
  apply (misaligned_delta_raises_ValueError [] visit0 [] [star0]
           [Misbehaving.two_values "zp"] "r" 16 (9 / 5) 42 (5 / 1000) true
           init_state tree0 [] [row0] [("zp", [1; 2])] star_tree_star0
           eq_refl eq_refl candidates_visit0 eq_refl).
  exists "zp", [1; 2]. split; [left|]. split; simpl; lia.
Defined.

(** X12 on the scenario: the visit on the star, then the visit opposite
    to it. *)
Lemma runs_concatenate_witness :
  run [visit0] [star0] (Some [shift "zp" (-1 / 10)])
  = Ok (Some [record0 (15 + -1 / 10)])
  /\ run [visit_far] [star0] (Some [shift "zp" (-1 / 10)]) = Ok (Some [])
  /\ run ([visit0] ++ [visit_far]) [star0] (Some [shift "zp" (-1 / 10)])
     = Ok (Some ([record0 (15 + -1 / 10)] ++ [])).
Proof.
  split; [apply run_one_shift|]. split; [apply run_visit_far|].
  apply (runs_concatenate [visit0] [visit_far] [star0]
           [shift "zp" (-1 / 10)] "r" 16 (9 / 5) 42 (5 / 1000) true
           init_state init_state init_state [record0 (15 + -1 / 10)] []
           (run_one_shift (-1 / 10)) (run_visit_far "zp" (-1 / 10))).
Defined.

(** X14 on the scenario. *)
Lemma successful_run_trace_witness :
  run [visit0] [star0] (Some [shift "zp" (-1 / 10)])
  = Ok (Some [record0 (15 + -1 / 10)])
  /\ let out := generate_catalog [visit0] [star0]
                  (Some [shift "zp" (-1 / 10)]) "r" 16 (9 / 5) 42 (5 / 1000)
                  true init_state in
     events out.2
     = events (init_state : State R)
       ++ map (fun i => Progress i (length [visit0]))
               (seq 0 (length [visit0]))
     /\ forall verbose',
          (generate_catalog [visit0] [star0] (Some [shift "zp" (-1 / 10)])
             "r" 16 (9 / 5) 42 (5 / 1000) verbose' init_state).1
          = Ok (Some [record0 (15 + -1 / 10)]).
Proof.
  split; [apply run_one_shift|].
  apply (successful_run_trace [visit0] [star0]
           (Some [shift "zp" (-1 / 10)]) "r" 16 (9 / 5) 42 (5 / 1000) true
           init_state [record0 (15 + -1 / 10)] (run_one_shift (-1 / 10))).
Defined.

(** X15 on the scenario: a second offset ["snr"] after ["zp"]. *)
Lemma offset_sees_earlier_deltas_witness :
  apply_offsets ([shift "zp" 1] ++ shift "snr" 2 :: []) [row0] visit0 []
  = Ok [("zp", [1]); ("snr", [2])]
  /\ exists dmags d,
       apply_offsets [shift "zp" 1] [row0] visit0 [] = Ok dmags
       /\ (forall k, k ∈ map fst dmags <-> k ∈ map newkey [shift "zp" 1])
       /\ call (shift "snr" 2) [row0] visit0 dmags = Ok d
       /\ apply_offsets [] [row0] visit0
            (dict_set (newkey (shift "snr" 2)) d dmags)
          = Ok [("zp", [1]); ("snr", [2])]
       /\ dict_get (newkey (shift "snr" 2))
            (dict_set (newkey (shift "snr" 2)) d dmags) = Ok d.
Proof.
  split; [reflexivity|].
  apply (offset_sees_earlier_deltas [shift "zp" 1] (shift "snr" 2) [] [row0]
           visit0 [("zp", [1]); ("snr", [2])] eq_refl).
Defined.

End FurtherWitnesses.
